(** * Balanced Pairwise Affinities: a shallow embedding of [bpa/balanced_pairwise_affinities.py]

    The development follows the Python class [BPA]:
    - [Float]: tensor entries.  A torch scalar is modelled as a real number or
      one of the three IEEE special values; arithmetic is exact on reals
      (no rounding, no overflow, one unsigned zero) and follows the IEEE
      tables on the special values, so that [0/0] is [NaN] as in torch.
    - [Torch]: rank-2 and rank-3 tensors with explicit shapes, the torch
      expressions the class uses, and the object store in which tensors live
      (in-place updates are writes to the store).
    - [BPA]: the constructor and the three methods, written in the store monad.
    - [Ot]: the Sinkhorn solver [ot.log_sinkhorn], whose source file is not
      part of the sources at hand. *)

From Stdlib Require Import Reals Lra ZArith Ascii String.
From stdpp Require Import base list strings.

(** ** Scalars *)

Module Float.

Local Open Scope R_scope.

Inductive val : Type :=
| Fin (r : R)
| PInf
| NInf
| NaN.

Definition vneg (a : val) : val :=
  match a with
  | Fin x => Fin (- x)
  | PInf => NInf
  | NInf => PInf
  | NaN => NaN
  end.

Definition vadd (a b : val) : val :=
  match a, b with
  | NaN, _ | _, NaN => NaN
  | Fin x, Fin y => Fin (x + y)
  | PInf, NInf | NInf, PInf => NaN
  | PInf, _ | _, PInf => PInf
  | NInf, _ | _, NInf => NInf
  end.

Definition vsub (a b : val) : val := vadd a (vneg b).

(** Sign of a real, for the products and quotients with an infinity. *)
Inductive sign := Neg | Zero | Pos.

Definition sgn (x : R) : sign :=
  if Rlt_dec 0 x then Pos else if Rlt_dec x 0 then Neg else Zero.

Definition vmul (a b : val) : val :=
  match a, b with
  | NaN, _ | _, NaN => NaN
  | Fin x, Fin y => Fin (x * y)
  | PInf, PInf | NInf, NInf => PInf
  | PInf, NInf | NInf, PInf => NInf
  | PInf, Fin x | Fin x, PInf =>
      match sgn x with Pos => PInf | Neg => NInf | Zero => NaN end
  | NInf, Fin x | Fin x, NInf =>
      match sgn x with Pos => NInf | Neg => PInf | Zero => NaN end
  end.

(** Division. A zero divisor gives [NaN] for [0/0] and an infinity otherwise
    (the zero is taken as [+0]). *)
Definition vdiv (a b : val) : val :=
  match a, b with
  | NaN, _ | _, NaN => NaN
  | Fin x, Fin y =>
      match sgn y with
      | Zero => match sgn x with Pos => PInf | Neg => NInf | Zero => NaN end
      | _ => Fin (x / y)
      end
  | Fin _, (PInf | NInf) => Fin 0
  | (PInf | NInf), (PInf | NInf) => NaN
  | PInf, Fin y => match sgn y with Neg => NInf | _ => PInf end
  | NInf, Fin y => match sgn y with Neg => PInf | _ => NInf end
  end.

Definition vsqrt (a : val) : val :=
  match a with
  | Fin x => if Rlt_dec x 0 then NaN else Fin (sqrt x)
  | PInf => PInf
  | NInf | NaN => NaN
  end.

(** [torch.exp], exact on numbers: the underflow to zero and the overflow to
    infinity of a float format are not represented. *)
Definition vexp (a : val) : val :=
  match a with
  | Fin x => Fin (exp x)
  | PInf => PInf
  | NInf => Fin 0
  | NaN => NaN
  end.

Definition vlog (a : val) : val :=
  match a with
  | Fin x =>
      match sgn x with Pos => Fin (ln x) | Zero => NInf | Neg => NaN end
  | PInf => PInf
  | NInf | NaN => NaN
  end.

(** [torch.sigmoid]: [1 / (1 + exp (-x))], exact on numbers: the saturation
    to exactly 0 and 1 of a float format is not represented. *)
Definition vsigmoid (a : val) : val :=
  match a with
  | Fin x => Fin (/ (1 + exp (- x)))
  | PInf => Fin 1
  | NInf => Fin 0
  | NaN => NaN
  end.

(** Maximum as torch reductions and [clamp_min] compute it: a [NaN] operand
    makes the result [NaN]. *)
Definition vmax (a b : val) : val :=
  match a, b with
  | NaN, _ | _, NaN => NaN
  | PInf, _ | _, PInf => PInf
  | NInf, y => y
  | x, NInf => x
  | Fin x, Fin y => Fin (Rmax x y)
  end.

(** Comparisons are those of IEEE: every comparison with [NaN] is false. *)
Definition vle (a b : val) : Prop :=
  match a, b with
  | NaN, _ | _, NaN => False
  | NInf, _ | _, PInf => True
  | Fin x, Fin y => x <= y
  | _, _ => False
  end.

Definition vlt (a b : val) : Prop :=
  match a, b with
  | NaN, _ | _, NaN => False
  | NInf, NInf | PInf, PInf => False
  | NInf, _ | _, PInf => True
  | Fin x, Fin y => x < y
  | _, _ => False
  end.

Definition finite (a : val) : Prop :=
  match a with Fin _ => True | _ => False end.

(** [in_range lo hi a]: [a] is a number between [lo] and [hi]. *)
Definition in_range (lo hi : R) (a : val) : Prop :=
  vle (Fin lo) a /\ vle a (Fin hi).

(** Sum of [f 0 .. f (n-1)], left to right from zero. *)
Fixpoint vsum (n : nat) (f : nat -> val) : val :=
  match n with
  | O => Fin 0
  | S k => vadd (vsum k f) (f k)
  end.

(** Maximum of [f 0 .. f (n-1)]; callers reject the empty range before. *)
Fixpoint vmaxs (n : nat) (f : nat -> val) : val :=
  match n with
  | O => NInf
  | S k => vmax (vmaxs k f) (f k)
  end.

End Float.
Export Float.

(** ** Tensors, torch expressions and the object store *)

Module Torch.

(** A dense tensor is its shape and its entries.  The class handles feature
    matrices [[N,D]] and [[B,N,D]] and square matrices [[N,N]] and [[B,N,N]],
    so ranks 2 and 3 are modelled.  Entries outside the shape are never read. *)
Inductive tensor : Type :=
| T2 (n m : nat) (e : nat -> nat -> val)
| T3 (b n m : nat) (e : nat -> nat -> nat -> val).

Definition dim (t : tensor) : nat :=
  match t with T2 _ _ _ => 2 | T3 _ _ _ _ => 3 end.

Definition shape (t : tensor) : list nat :=
  match t with
  | T2 n m _ => [n; m]
  | T3 b n m _ => [b; n; m]
  end.

Definition numel (t : tensor) : nat := foldr Nat.mul 1%nat (shape t).

(** Literals: a matrix from its rows, a batch from its matrices. *)
Definition of_rows (rows : list (list val)) : tensor :=
  T2 (length rows) (length (hd [] rows))
     (fun i j => nth j (nth i rows []) NaN).

Definition of_batch (ms : list (list (list val))) : tensor :=
  T3 (length ms) (length (hd [] ms)) (length (hd [] (hd [] ms)))
     (fun k i j => nth j (nth i (nth k ms []) []) NaN).

(** Exceptions the class can raise. [StaleHandle] is an artefact of the
    store model (reading a location that was never allocated); Python has no
    such state. *)
Inductive exn : Type :=
| AssertionError
| RuntimeError
| IndexError
| UnboundLocalError
| StaleHandle.

Inductive outcome (A : Type) : Type :=
| Ok (a : A)
| Raise (e : exn).
Arguments Ok {A} a.
Arguments Raise {A} e.

(** *** Pure torch expressions *)

(** Squared difference and L2 distance of two rows of length [d]. *)
Definition vsq (a : val) : val := vmul a a.

Definition l2dist (d : nat) (a b : nat -> val) : val :=
  vsqrt (vsum d (fun k => vsq (vsub (a k) (b k)))).

(** [torch.cdist(x, x, p=2)] by the direct formula, pair by pair, in exact
    arithmetic.  (For more than 25 rows torch computes the same distances
    through a matrix product, whose rounding is not represented.) *)
Definition cdist_xx (x : tensor) : tensor :=
  match x with
  | T2 n d e => T2 n n (fun i j => l2dist d (e i) (e j))
  | T3 b n d e => T3 b n n (fun k i j => l2dist d (e k i) (e k j))
  end.

(** [t.max()]: the maximum over every entry; fails on an empty tensor. *)
Definition tmax (t : tensor) : outcome val :=
  if (numel t =? 0)%nat then Raise RuntimeError
  else Ok match t with
          | T2 n m e => vmaxs n (fun i => vmaxs m (e i))
          | T3 b n m e => vmaxs b (fun k => vmaxs n (fun i => vmaxs m (e k i)))
          end.

(** [t / z] for a scalar [z]. *)
Definition tdiv_scalar (t : tensor) (z : val) : tensor :=
  match t with
  | T2 n m e => T2 n m (fun i j => vdiv (e i j) z)
  | T3 b n m e => T3 b n m (fun k i j => vdiv (e k i j) z)
  end.

(** [t.amax(dim=(1, 2), keepdim=True)] on a rank-3 tensor: one maximum per
    batch element, shape [[B,1,1]]; the reduced dimensions must be non-empty. *)
Definition amax12 (t : tensor) : outcome tensor :=
  match t with
  | T3 b n m e =>
      if ((n =? 0) || (m =? 0))%nat then Raise IndexError
      else Ok (T3 b 1 1 (fun k _ _ => vmaxs n (fun i => vmaxs m (e k i))))
  | T2 _ _ _ => Raise IndexError
  end.

(** [t / z] for a tensor [z] of shape [[B,1,1]] broadcast over [t : [B,N,M]]. *)
Definition tdiv_b11 (t z : tensor) : outcome tensor :=
  match t, z with
  | T3 b n m e, T3 b' 1 1 ez =>
      if (b =? b')%nat
      then Ok (T3 b n m (fun k i j => vdiv (e k i j) (ez k O O)))
      else Raise RuntimeError
  | _, _ => Raise RuntimeError
  end.

(** [F.normalize(x, dim=-1, p=2)]: every row divided by
    [max (its L2 norm, eps)] with [eps = 1e-12]. *)
Definition eps : val := Fin (/ 1000000000000).

Definition l2norm (d : nat) (a : nat -> val) : val :=
  vsqrt (vsum d (fun k => vsq (a k))).

Definition normalize (x : tensor) : tensor :=
  match x with
  | T2 n d e => T2 n d (fun i k => vdiv (e i k) (vmax (l2norm d (e i)) eps))
  | T3 b n d e =>
      T3 b n d (fun c i k => vdiv (e c i k) (vmax (l2norm d (e c i)) eps))
  end.

(** [t @ t.transpose(-2, -1)]: the matrix of inner products of the rows, in
    exact arithmetic. *)
Definition dot (d : nat) (a b : nat -> val) : val :=
  vsum d (fun k => vmul (a k) (b k)).

Definition gram (t : tensor) : tensor :=
  match t with
  | T2 n d e => T2 n n (fun i j => dot d (e i) (e j))
  | T3 b n d e => T3 b n n (fun k i j => dot d (e k i) (e k j))
  end.

(** Entrywise maps: [1 - t], [torch.exp], [torch.sigmoid]. *)
Definition tmap (f : val -> val) (t : tensor) : tensor :=
  match t with
  | T2 n m e => T2 n m (fun i j => f (e i j))
  | T3 b n m e => T3 b n m (fun k i j => f (e k i j))
  end.

Definition one_minus (t : tensor) : tensor := tmap (vsub (Fin 1)) t.
Definition texp (t : tensor) : tensor := tmap vexp t.
Definition tsigmoid (t : tensor) : tensor := tmap vsigmoid t.

(** [t.fill_diagonal_(v)] on a matrix: the entries [(i,i)] with
    [i < min n m] get [v]; no shape is rejected. *)
Definition fill_diagonal (t : tensor) (v : val) : outcome tensor :=
  match t with
  | T2 n m e => Ok (T2 n m (fun i j => if (i =? j)%nat then v else e i j))
  | T3 _ _ _ _ => Raise RuntimeError
  end.

(** A boolean mask of rank 3. *)
Record mask : Type :=
  Mask { mb : nat; mn : nat; mm : nat; mbit : nat -> nat -> nat -> bool }.

(** [torch.eye(n).repeat(b, 1, 1).bool()]. *)
Definition eye_repeat (n b : nat) : mask :=
  Mask b n n (fun _ i j => (i =? j)%nat).

(** [t[mk] = v]: the mask must have the shape of [t]; the entries it selects
    get [v]. *)
Definition masked_assign (t : tensor) (mk : mask) (v : val) : outcome tensor :=
  match t with
  | T3 b n m e =>
      if ((b =? mb mk) && (n =? mn mk) && (m =? mm mk))%nat
      then Ok (T3 b n m (fun k i j => if mbit mk k i j then v else e k i j))
      else Raise IndexError
  | T2 _ _ _ => Raise IndexError
  end.

(** *** The object store

    Tensors are objects: a Python variable holds a location, and two
    variables can hold the same one.  [alloc] gives a new tensor the next
    free location; an in-place update is a [write]. The store survives an
    exception. *)
Definition loc := nat.
Abbreviation heap := (list tensor).
Definition M (A : Type) : Type := heap -> outcome A * heap.

Definition ret {A} (a : A) : M A := fun h => (Ok a, h).
Definition raise {A} (e : exn) : M A := fun h => (Raise e, h).
Definition bind {A B} (c : M A) (k : A -> M B) : M B :=
  fun h => match c h with
           | (Ok a, h') => k a h'
           | (Raise e, h') => (Raise e, h')
           end.
Definition lift {A} (o : outcome A) : M A := fun h => (o, h).

Definition alloc (t : tensor) : M loc := fun h => (Ok (length h), h ++ [t]).
Definition read (l : loc) : M tensor :=
  fun h => match h !! l with
           | Some t => (Ok t, h)
           | None => (Raise StaleHandle, h)
           end.
Definition write (l : loc) (t : tensor) : M unit :=
  fun h => match h !! l with
           | Some _ => (Ok tt, <[l:=t]> h)
           | None => (Raise StaleHandle, h)
           end.

End Torch.
Export Torch.

Declare Scope store_scope.
Delimit Scope store_scope with store.
Notation "'let*' x ':=' c 'in' k" := (bind c (fun x => k))
  (at level 10, x name, c at level 100, k at level 200) : store_scope.
Notation "c ';;' k" := (bind c (fun _ => k))
  (at level 100, k at level 200, right associativity) : store_scope.

(** ** The class [BPA] *)

Module BPA.

Local Open Scope string_scope.

(** [str.lower] on the ASCII letters; every other character is kept. *)
Definition lower_ascii (c : ascii) : ascii :=
  let n := nat_of_ascii c in
  if ((65 <=? n) && (n <=? 90))%nat then ascii_of_nat (n + 32) else c.

Fixpoint lower (s : string) : string :=
  match s with
  | EmptyString => EmptyString
  | String c s' => String (lower_ascii c) (lower s')
  end.

Definition supported_distances : list string := ["cosine"; "euclidean"].

(** The fields [__init__] stores on [self]. *)
Record BPA : Type := mkBPA {
  sinkhorn_iterations : Z;
  distance_metric : string;
  mask_diag : bool;
  sigmoid : bool;
  ot_reg : val;
  max_scale : bool;
  diagonal_val : val
}.

(** [BPA.__init__]: one assertion, on the metric name and the iteration
    count, then the fields are stored. *)
Definition __init__ (distance_metric : string) (ot_reg : val)
    (sinkhorn_iterations : Z) (sigmoid mask_diag max_scale : bool)
    : outcome BPA :=
  if bool_decide (lower distance_metric ∈ supported_distances)
     && (0 <? sinkhorn_iterations)%Z
  then Ok {| sinkhorn_iterations := sinkhorn_iterations;
             distance_metric := lower distance_metric;
             mask_diag := mask_diag;
             sigmoid := sigmoid;
             ot_reg := ot_reg;
             max_scale := max_scale;
             diagonal_val := Fin 1000 |}
  else Raise AssertionError.

Section Methods.

(** [ot.log_sinkhorn(C, reg=..., num_iters=...)]: the module [bpa/ot.py] is
    not among the sources, so the solver is a parameter of the methods.  It is
    a function of the cost matrix, the regularisation and the iteration count
    and returns a new tensor. *)
Variable log_sinkhorn : tensor -> val -> Z -> tensor.

Variable self : BPA.

Local Open Scope store_scope.

(** [BPA.compute_cost_matrix]. When neither branch is taken the local
    [pairwise_dist] is unbound at the [return]. *)
Definition compute_cost_matrix (x : loc) : M loc :=
  if String.eqb (distance_metric self) "euclidean" then
    let* xt := read x in
    let* pairwise_dist := alloc (cdist_xx xt) in
    let* pd := read pairwise_dist in
    let* mx := lift (tmax pd) in
    alloc (tdiv_scalar pd mx)
  else if String.eqb (distance_metric self) "cosine" then
    let* xt := read x in
    let* x_norm := alloc (normalize xt) in
    let* xn := read x_norm in
    alloc (one_minus (gram xn))
  else raise UnboundLocalError.

(** [BPA.mask_diagonal]: updates [M] in place and returns it. *)
Definition mask_diagonal (M : loc) (value : val) : Torch.M loc :=
  if mask_diag self then
    let* t := read M in
    if (2 <? dim t)%nat then
      let* t' := lift (masked_assign t
                         (eye_repeat (nth 1 (shape t) O) (nth 0 (shape t) O))
                         value) in
      write M t' ;; ret M
    else
      let* t' := lift (fill_diagonal t value) in
      write M t' ;; ret M
  else ret M.

(** [BPA.forward] up to and including the range normalisation
    (everything before the last line). *)
Definition forward_scaled (x : loc) : M loc :=
  let* C := compute_cost_matrix x in
  let* C := mask_diagonal C (diagonal_val self) in
  let* Ct := read C in
  let* x_bpa := alloc (log_sinkhorn Ct (ot_reg self) (sinkhorn_iterations self)) in
  let* L := read x_bpa in
  let* x_bpa := (if sigmoid self then alloc (tsigmoid L) else alloc (texp L)) in
  if max_scale self then
    let* P := read x_bpa in
    if (dim P <=? 2)%nat then
      let* z_max := lift (tmax P) in
      alloc (tdiv_scalar P z_max)
    else
      let* z_max := lift (amax12 P) in
      let* z_max := alloc z_max in
      let* z := read z_max in
      let* Q := lift (tdiv_b11 P z) in
      alloc Q
  else ret x_bpa.

(** [BPA.forward]. *)
Definition forward (x : loc) : M loc :=
  let* x_bpa := forward_scaled x in
  mask_diagonal x_bpa (Fin 1).

End Methods.

Local Open Scope store_scope.

(** The module-level function [cosine_similarity]: the pairwise cosine
    similarity of the rows of [x], in a new tensor. *)
Definition cosine_similarity (x : loc) : M loc :=
  let* xt := read x in
  let* x_norm := alloc (normalize xt) in
  let* xn := read x_norm in
  alloc (gram xn).

End BPA.

(** ** The Sinkhorn solver *)

Module Ot.

(** Modelled from the spec: the reduction used by the missing [bpa/ot.py].
    Stable log-sum-exp of [f 0 .. f (n-1)]: the maximum is subtracted before
    exponentiating and added back after the logarithm (section 4.3). *)
Definition logsumexp (n : nat) (f : nat -> val) : val :=
  let mx := vmaxs n f in
  vadd mx (vlog (vsum n (fun k => vexp (vsub (f k) mx)))).

(** Modelled from the spec: one round of the missing [bpa/ot.py], step 2 of
    section 4.3, updating the potentials [(u, v)] of an [n] by [m] cost [c]:
    first [u] from the old [v], then [v] from the new [u]. *)
Definition sinkhorn_step (n m : nat) (c : nat -> nat -> val) (reg : val)
    (uv : (nat -> val) * (nat -> val)) : (nat -> val) * (nat -> val) :=
  let log_mu := vneg (vlog (Fin (INR n))) in
  let log_nu := vneg (vlog (Fin (INR m))) in
  let u := fun i =>
    vsub log_mu
         (logsumexp m (fun j => vdiv (vadd (vneg (c i j)) (snd uv j)) reg)) in
  let v := fun j =>
    vsub log_nu
         (logsumexp n (fun i => vdiv (vadd (vneg (c i j)) (u i)) reg)) in
  (u, v).

(** Modelled from the spec: steps 1 to 3 of section 4.3 for one matrix of
    the missing [bpa/ot.py]: potentials start at zero, [iters] rounds, then
    the plan [(-c i j + u i + v j) / reg]. *)
Definition sinkhorn_plan (n m : nat) (c : nat -> nat -> val) (reg : val)
    (iters : nat) : nat -> nat -> val :=
  let uv := Nat.iter iters (sinkhorn_step n m c reg)
                     (fun _ => Fin 0, fun _ => Fin 0) in
  fun i j => vdiv (vadd (vadd (vneg (c i j)) (fst uv i)) (snd uv j)) reg.

(** Modelled from the spec: [bpa/ot.py] (the function [log_sinkhorn]) is
    missing from the sources.  Following section 4.3: uniform log marginals
    [-log N], potentials [u = v = 0], [iterations] rounds of
    [u <- log_mu - logsumexp_j ((-cost + v) / reg)] then
    [v <- log_nu - logsumexp_i ((-cost + u) / reg)], and the plan
    [(-cost[i,j] + u[i] + v[j]) / reg], the same formulas on every batch
    slice. *)
Definition log_sinkhorn (C : tensor) (reg : val) (num_iters : Z) : tensor :=
  match C with
  | T2 n m c => T2 n m (sinkhorn_plan n m c reg (Z.to_nat num_iters))
  | T3 b n m c =>
      T3 b n m (fun k => sinkhorn_plan n m (c k) reg (Z.to_nat num_iters))
  end.

End Ot.

(** ** Properties of tensors and stores used in the statements *)

Module Props.

(** Every entry inside the shape satisfies [P]. *)
Definition entries (P : val -> Prop) (t : tensor) : Prop :=
  match t with
  | T2 n m e => forall i j, (i < n)%nat -> (j < m)%nat -> P (e i j)
  | T3 b n m e =>
      forall k i j, (k < b)%nat -> (i < n)%nat -> (j < m)%nat -> P (e k i j)
  end.

Definition tfinite (t : tensor) : Prop := entries finite t.

(** Every diagonal entry [[..., i, i]] is [v]. *)
Definition diag_all (v : val) (t : tensor) : Prop :=
  match t with
  | T2 n m e => forall i, (i < n)%nat -> (i < m)%nat -> e i i = v
  | T3 b n m e =>
      forall k i, (k < b)%nat -> (i < n)%nat -> (i < m)%nat -> e k i i = v
  end.

(** Every off-diagonal entry satisfies [P]. *)
Definition offdiag_all (P : val -> Prop) (t : tensor) : Prop :=
  match t with
  | T2 n m e => forall i j, (i < n)%nat -> (j < m)%nat -> i <> j -> P (e i j)
  | T3 b n m e =>
      forall k i j, (k < b)%nat -> (i < n)%nat -> (j < m)%nat -> i <> j ->
                    P (e k i j)
  end.

(** The comparison [a == b] of IEEE: false as soon as one side is [NaN]. *)
Definition veq (a b : val) : Prop :=
  match a, b with
  | NaN, _ | _, NaN => False
  | Fin x, Fin y => x = y
  | PInf, PInf | NInf, NInf => True
  | _, _ => False
  end.

(** A feature tensor with at least one item (and one batch element). *)
Definition populated (x : tensor) : Prop :=
  match x with
  | T2 n _ _ => (0 < n)%nat
  | T3 b n _ _ => (0 < b)%nat /\ (0 < n)%nat
  end.

(** Shape of the cost and affinity matrices of a feature tensor. *)
Definition square_shape (x : tensor) : list nat :=
  match x with
  | T2 n _ _ => [n; n]
  | T3 b n _ _ => [b; n; n]
  end.

Definition trailing_square (t : tensor) : bool :=
  match t with
  | T2 n m _ => (n =? m)%nat
  | T3 _ n m _ => (n =? m)%nat
  end.

(** [t] with every diagonal entry [[..., i, i]] replaced by [v]. *)
Definition set_diag (v : val) (t : tensor) : tensor :=
  match t with
  | T2 n m e => T2 n m (fun i j => if (i =? j)%nat then v else e i j)
  | T3 b n m e => T3 b n m (fun k i j => if (i =? j)%nat then v else e k i j)
  end.

(** The slice-wise maxima of a tensor: one per batch element, a single one
    for a matrix. *)
Definition slice_max (t : tensor) (k : nat) : val :=
  match t with
  | T2 n m e => vmaxs n (fun i => vmaxs m (e i))
  | T3 b n m e => vmaxs n (fun i => vmaxs m (e k i))
  end.

(** [q] is [p] with every entry divided by the maximum of its own slice. *)
Definition scaled_by_slice_max (p q : tensor) : Prop :=
  match p, q with
  | T2 n m e, T2 n' m' e' =>
      n' = n /\ m' = m /\
      forall i j, e' i j = vdiv (e i j) (slice_max p O)
  | T3 b n m e, T3 b' n' m' e' =>
      b' = b /\ n' = n /\ m' = m /\
      forall k i j, e' k i j = vdiv (e k i j) (slice_max p k)
  | _, _ => False
  end.

(** Every slice of [t] has an entry equal to [v]. *)
Definition slice_attains (v : val) (t : tensor) : Prop :=
  match t with
  | T2 n m e => exists i j, (i < n)%nat /\ (j < m)%nat /\ e i j = v
  | T3 b n m e =>
      forall k, (k < b)%nat ->
                exists i j, (i < n)%nat /\ (j < m)%nat /\ e k i j = v
  end.

(** The plan recovered from the log-domain plan [L]: [sigmoid L] or [exp L]. *)
Definition recovered (self : BPA.BPA) (L : tensor) : tensor :=
  if BPA.sigmoid self then tsigmoid L else texp L.

(** The number a scalar stands for (zero for the special values). *)
Definition rval (v : val) : R :=
  match v with Fin r => r | _ => 0%R end.

(** Maximum of the reals [g 0 .. g (n-1)], for [n >= 1]. *)
Fixpoint rmaxs (n : nat) (g : nat -> R) : R :=
  match n with
  | O => 0%R
  | S k => match k with
           | O => g O
           | S _ => Rmax (rmaxs k g) (g k)
           end
  end.

(** Sum of the reals [g 0 .. g (n-1)]. *)
Fixpoint rsum (n : nat) (g : nat -> R) : R :=
  match n with
  | O => 0%R
  | S k => (rsum k g + g k)%R
  end.

(** The potentials of an [n] by [m] problem hold numbers. *)
Definition potentials_finite (n m : nat)
    (uv : (nat -> val) * (nat -> val)) : Prop :=
  (forall i, (i < n)%nat -> finite (fst uv i))
  /\ (forall j, (j < m)%nat -> finite (snd uv j)).

(** The first two lines of [forward]: the masked cost matrix. *)
Definition masked_cost (self : BPA.BPA) (x : loc) : M loc :=
  bind (BPA.compute_cost_matrix self x)
       (fun C => BPA.mask_diagonal self C (BPA.diagonal_val self)).

(** [c] keeps the objects of [h0]: run from any store that extends [h0], it
    ends in a store that extends [h0], and a returned value satisfies [Q]. *)
Definition keeps {A} (h0 : heap) (c : M A) (Q : A -> Prop) : Prop :=
  forall h, h0 `prefix_of` h ->
            h0 `prefix_of` snd (c h)
            /\ forall a, fst (c h) = Ok a -> Q a.

(** A location that does not belong to [h0]. *)
Definition outside (h0 : heap) (l : loc) : Prop := (length h0 <= l)%nat.


(** [t] has the shape of [s] and the off-diagonal entries of [s]. *)
Definition offdiag_same (s t : tensor) : Prop :=
  match s, t with
  | T2 n m e, T2 n' m' e' =>
      n' = n /\ m' = m /\
      forall i j, (i < n)%nat -> (j < m)%nat -> i <> j -> e' i j = e i j
  | T3 b n m e, T3 b' n' m' e' =>
      b' = b /\ n' = n /\ m' = m /\
      forall k i j, (k < b)%nat -> (i < n)%nat -> (j < m)%nat -> i <> j ->
                    e' k i j = e k i j
  | _, _ => False
  end.

(** Length of the last axis, the rows of a tensor, and its entries; the
    batch index is ignored for a matrix. *)
Definition width (t : tensor) : nat :=
  match t with
  | T2 _ d _ => d
  | T3 _ _ d _ => d
  end.

Definition row (t : tensor) (k i : nat) : nat -> val :=
  match t with
  | T2 _ _ e => e i
  | T3 _ _ _ e => e k i
  end.

Definition entry (t : tensor) (k i j : nat) : val := row t k i j.

(** [(k, i)] is a row of [t]. *)
Definition is_row (t : tensor) (k i : nat) : Prop :=
  match t with
  | T2 n _ _ => (i < n)%nat
  | T3 b n _ _ => (k < b)%nat /\ (i < n)%nat
  end.


End Props.
Export Props.

(** ** Verification *)

Import BPA.
Local Open Scope string_scope.
Local Open Scope list_scope.

(** *** The constructor *)

Lemma init_accepts (m : string) (reg : val) (it : Z) (sg md ms : bool) :
  lower m ∈ supported_distances -> (0 < it)%Z ->
  __init__ m reg it sg md ms =
  Ok (mkBPA it (lower m) md sg reg ms (Fin 1000)).
Proof.
  intros Hm Hit. unfold __init__.
  rewrite bool_decide_eq_true_2 by exact Hm.
  assert ((0 <? it)%Z = true) as -> by (apply Z.ltb_lt; exact Hit).
  reflexivity.
Qed.

Lemma init_rejects (m : string) (reg : val) (it : Z) (sg md ms : bool) :
  ~ (lower m ∈ supported_distances /\ (0 < it)%Z) ->
  __init__ m reg it sg md ms = Raise AssertionError.
Proof.
  intros Hno. unfold __init__.
  destruct (bool_decide (lower m ∈ supported_distances)) eqn:Hm; simpl.
  - destruct (0 <? it)%Z eqn:Hit; [|reflexivity].
    exfalso. apply Hno. split.
    + apply bool_decide_eq_true in Hm. exact Hm.
    + apply Z.ltb_lt. exact Hit.
  - reflexivity.
Qed.

Lemma supported_cases (s : string) :
  s ∈ supported_distances <-> s = "cosine" \/ s = "euclidean".
Proof.
  unfold supported_distances. rewrite !elem_of_cons, elem_of_nil. tauto.
Qed.

(** C1, the claim as stated fails: with [ot_reg = 0] and the other defaults
    the constructor returns the object, storing the zero. *)
Lemma init_zero_reg_constructs :
  __init__ "cosine" (Fin 0) 10 false true true =
  Ok (mkBPA 10 "cosine" true false (Fin 0) true (Fin 1000)).
Proof. reflexivity. Qed.

(** C1, amended: the constructor checks the metric name and the iteration
    count and nothing else.  It returns an object exactly when the lowercased
    metric is supported and the iteration count is positive, whatever
    [ot_reg] is, and stores [ot_reg] as given; otherwise it raises the
    assertion's error. *)
Theorem init_checks_metric_and_iterations_only
    (m : string) (reg : val) (it : Z) (sg md ms : bool) :
  ((exists self, __init__ m reg it sg md ms = Ok self /\ ot_reg self = reg)
   <-> (lower m = "cosine" \/ lower m = "euclidean") /\ (0 < it)%Z)
  /\ (__init__ m reg it sg md ms = Raise AssertionError
      <-> ~ ((lower m = "cosine" \/ lower m = "euclidean") /\ (0 < it)%Z)).
Proof.
  rewrite <- supported_cases.
  destruct (decide (lower m ∈ supported_distances /\ (0 < it)%Z)) as [Hy|Hn].
  - destruct Hy as [Hm Hit]. rewrite (init_accepts m reg it sg md ms Hm Hit).
    split; split.
    + intros _. split; assumption.
    + intros _. eexists. split; reflexivity.
    + discriminate.
    + intros Hno. exfalso. apply Hno. split; assumption.
  - rewrite (init_rejects m reg it sg md ms Hn). split; split.
    + intros [self [Heq _]]. discriminate.
    + intros Hy. contradiction.
    + intros _. exact Hn.
    + reflexivity.
Qed.

(** C10: a metric name that lowercases to a supported name is accepted, and
    the object built from it is the object built from the lowercase name. *)
Theorem init_metric_case_insensitive
    (m : string) (reg : val) (it : Z) (sg md ms : bool) :
  lower m = "cosine" \/ lower m = "euclidean" -> (0 < it)%Z ->
  exists self,
    __init__ m reg it sg md ms = Ok self
    /\ __init__ (lower m) reg it sg md ms = Ok self
    /\ distance_metric self = lower m.
Proof.
  intros Hm Hit.
  assert (lower (lower m) = lower m) as Hidem
    by (destruct Hm as [-> | ->]; reflexivity).
  exists (mkBPA it (lower m) md sg reg ms (Fin 1000)). split; [|split].
  - apply init_accepts; [apply supported_cases|]; assumption.
  - rewrite <- Hidem at 2. apply init_accepts; [|assumption].
    rewrite Hidem. apply supported_cases. assumption.
  - reflexivity.
Qed.

Lemma init_metric_case_insensitive_witness :
  exists self,
    __init__ "EuClIdEaN" (Fin (/ 10)) 10 false true true = Ok self
    /\ __init__ (lower "EuClIdEaN") (Fin (/ 10)) 10 false true true = Ok self
    /\ distance_metric self = lower "EuClIdEaN".
Proof.
  apply (init_metric_case_insensitive "EuClIdEaN" (Fin (/ 10)) 10
           false true true).
  - right. reflexivity.
  - reflexivity.
Defined.

(** *** The store *)

Lemma bind_run {A B} (c : M A) (k : A -> M B) (h h' : heap) (a : A) :
  c h = (Ok a, h') -> bind c k h = k a h'.
Proof. intros Hc. unfold bind. rewrite Hc. reflexivity. Qed.

Lemma bind_raise {A B} (c : M A) (k : A -> M B) (h h' : heap) (e : exn) :
  c h = (Raise e, h') -> bind c k h = (Raise e, h').
Proof. intros Hc. unfold bind. rewrite Hc. reflexivity. Qed.

Lemma read_run (l : loc) (t : tensor) (h : heap) :
  h !! l = Some t -> read l h = (Ok t, h).
Proof. intros Hl. unfold read. rewrite Hl. reflexivity. Qed.

Lemma write_run (l : loc) (t t' : tensor) (h : heap) :
  h !! l = Some t -> write l t' h = (Ok tt, <[l:=t']> h).
Proof. intros Hl. unfold write. rewrite Hl. reflexivity. Qed.

Lemma lookup_fresh (h : heap) (t : tensor) (k : heap) :
  (h ++ t :: k) !! length h = Some t.
Proof. apply list_lookup_middle. reflexivity. Qed.

(** *** [mask_diagonal] *)

(** The in-place update of either branch, as a value. *)
Lemma masked_assign_eye (t : tensor) (v : val) :
  dim t = 3%nat ->
  masked_assign t (eye_repeat (nth 1 (shape t) O) (nth 0 (shape t) O)) v =
  if trailing_square t then Ok (set_diag v t) else Raise IndexError.
Proof.
  destruct t as [n m e | b n m e]; [discriminate|]. intros _. simpl.
  rewrite !Nat.eqb_refl. simpl.
  rewrite (Nat.eqb_sym m n). destruct (n =? m)%nat; reflexivity.
Qed.

Lemma fill_diagonal_matrix (t : tensor) (v : val) :
  dim t = 2%nat -> fill_diagonal t v = Ok (set_diag v t).
Proof. destruct t; [reflexivity | discriminate]. Qed.

Lemma mask_diagonal_run (self : BPA) (M : loc) (v : val) (h : heap)
    (t : tensor) :
  h !! M = Some t ->
  mask_diagonal self M v h =
  if mask_diag self then
    if (dim t =? 3)%nat && negb (trailing_square t)
    then (Raise IndexError, h)
    else (Ok M, <[M:=set_diag v t]> h)
  else (Ok M, h).
Proof.
  intros Hl. unfold mask_diagonal. destruct (mask_diag self); [|reflexivity].
  rewrite (bind_run _ _ _ _ _ (read_run _ _ _ Hl)).
  destruct t as [n m e | b n m e].
  - simpl. unfold bind, lift. simpl. unfold write. rewrite Hl. reflexivity.
  - change (2 <? dim (T3 b n m e))%nat with true. cbv iota.
    rewrite masked_assign_eye by reflexivity.
    change (dim (T3 b n m e) =? 3)%nat with true.
    destruct (trailing_square (T3 b n m e)); simpl.
    + unfold bind, lift. simpl. unfold write. rewrite Hl. reflexivity.
    + reflexivity.
Qed.

(** C5: with masking disabled [mask_diagonal] returns its argument, the
    same object, and leaves the whole store as it was. *)
Theorem mask_diagonal_disabled_identity (self : BPA) (M : loc) (v : val)
    (h : heap) :
  mask_diag self = false -> mask_diagonal self M v h = (Ok M, h).
Proof. intros Hoff. unfold mask_diagonal. rewrite Hoff. reflexivity. Qed.

Lemma mask_diagonal_disabled_identity_witness :
  mask_diagonal (mkBPA 10 "cosine" false false (Fin (/ 10)) true (Fin 1000))
                O (Fin 1)
                [of_rows [[Fin 3; Fin 4]; [Fin 5; Fin 6]]]
  = (Ok O, [of_rows [[Fin 3; Fin 4]; [Fin 5; Fin 6]]]).
Proof.
  apply (mask_diagonal_disabled_identity
           (mkBPA 10 "cosine" false false (Fin (/ 10)) true (Fin 1000))).
  reflexivity.
Defined.

(** C8, the claim as stated fails: with masking enabled, a 2 by 3 matrix is
    accepted, and the call returns the matrix. *)
Lemma mask_diagonal_accepts_wide_matrix :
  fst (mask_diagonal
         (mkBPA 10 "cosine" true false (Fin (/ 10)) true (Fin 1000))
         O (Fin 1000)
         [of_rows [[Fin 0; Fin 1; Fin 2]; [Fin 3; Fin 4; Fin 5]]])
  = Ok O.
Proof. reflexivity. Qed.

(** C8, amended: [mask_diagonal] has no check of its own.  With masking
    disabled it returns any tensor untouched.  With masking enabled, a matrix
    [[N,M]] of any shape is accepted and gets its entries [(i,i)] overwritten;
    a batch [[B,N,M]] raises the index error of the masked assignment exactly
    when [N <> M], and is left untouched then. *)
Theorem mask_diagonal_fails_only_on_nonsquare_batch (self : BPA) (M : loc)
    (v : val) (h : heap) (t : tensor) :
  h !! M = Some t ->
  (mask_diag self = true /\ dim t = 3%nat /\ trailing_square t = false ->
   mask_diagonal self M v h = (Raise IndexError, h))
  /\ (mask_diag self = true /\ (dim t = 2%nat \/ trailing_square t = true) ->
      mask_diagonal self M v h = (Ok M, <[M:=set_diag v t]> h))
  /\ (mask_diag self = false -> mask_diagonal self M v h = (Ok M, h)).
Proof.
  intros Hl. rewrite (mask_diagonal_run self M v h t Hl).
  split; [|split].
  - intros (-> & -> & ->). reflexivity.
  - intros (-> & Hsq).
    destruct Hsq as [-> | ->]; [reflexivity|].
    rewrite andb_false_r. reflexivity.
  - intros ->. reflexivity.
Qed.

Lemma mask_diagonal_fails_only_on_nonsquare_batch_witness :
  let self := mkBPA 10 "cosine" true false (Fin (/ 10)) true (Fin 1000) in
  let t := of_batch [[[Fin 0; Fin 1; Fin 2]; [Fin 3; Fin 4; Fin 5]]] in
  mask_diagonal self O (Fin 1) [t] = (Raise IndexError, [t]).
Proof.
  intros self t.
  apply (mask_diagonal_fails_only_on_nonsquare_batch self O (Fin 1) [t] t).
  - reflexivity.
  - repeat split.
Defined.

(** *** Scalars *)

Section ScalarFacts.

Local Open Scope R_scope.

Lemma sgn_zero : sgn 0 = Zero.
Proof.
  unfold sgn. destruct (Rlt_dec 0 0) as [H|_]; [lra|].
  destruct (Rlt_dec 0 0) as [H|_]; [lra|reflexivity].
Qed.

Lemma sgn_pos (x : R) : 0 < x -> sgn x = Pos.
Proof. intros Hx. unfold sgn. destruct (Rlt_dec 0 x); [reflexivity|lra]. Qed.

Lemma sgn_neg (x : R) : x < 0 -> sgn x = Neg.
Proof.
  intros Hx. unfold sgn. destruct (Rlt_dec 0 x); [lra|].
  destruct (Rlt_dec x 0); [reflexivity|lra].
Qed.

Lemma vmul_comm (a b : val) : vmul a b = vmul b a.
Proof.
  destruct a, b; simpl; try reflexivity. f_equal. apply Rmult_comm.
Qed.

Lemma vsq_vsub_swap (a b : val) : vsq (vsub a b) = vsq (vsub b a).
Proof.
  destruct a, b; simpl; try reflexivity.
  unfold vsq, vsub. simpl. f_equal. ring.
Qed.

Lemma vsum_ext (n : nat) (f g : nat -> val) :
  (forall k, (k < n)%nat -> f k = g k) -> vsum n f = vsum n g.
Proof.
  induction n as [|n IH]; intros Hfg; simpl; [reflexivity|].
  rewrite IH by (intros k Hk; apply Hfg; lia).
  rewrite Hfg by lia. reflexivity.
Qed.

Lemma vsum_zero (n : nat) (f : nat -> val) :
  (forall k, (k < n)%nat -> f k = Fin 0) -> vsum n f = Fin 0.
Proof.
  induction n as [|n IH]; intros Hf; simpl; [reflexivity|].
  rewrite IH by (intros k Hk; apply Hf; lia).
  rewrite Hf by lia. simpl. f_equal. lra.
Qed.

Lemma vmax_idem (v : val) : vmax v v = v.
Proof.
  destruct v; simpl; try reflexivity. f_equal. apply Rmax_left. lra.
Qed.

Lemma vmaxs_const (n : nat) (f : nat -> val) (v : val) :
  (0 < n)%nat -> (forall i, (i < n)%nat -> f i = v) -> vmaxs n f = v.
Proof.
  induction n as [|n IH]; intros Hn Hf; [lia|]. simpl.
  rewrite (Hf n) by lia.
  destruct n as [|n'].
  - simpl. destruct v; reflexivity.
  - rewrite IH by (try lia; intros i Hi; apply Hf; lia). apply vmax_idem.
Qed.

Lemma l2dist_sym (d : nat) (a b : nat -> val) : l2dist d a b = l2dist d b a.
Proof.
  unfold l2dist. f_equal. apply vsum_ext. intros k _. apply vsq_vsub_swap.
Qed.

Lemma dot_sym (d : nat) (a b : nat -> val) : dot d a b = dot d b a.
Proof. unfold dot. apply vsum_ext. intros k _. apply vmul_comm. Qed.

(** Two equal rows of numbers are at distance zero. *)
Lemma l2dist_same (d : nat) (a b : nat -> val) (r : nat -> R) :
  (forall k, (k < d)%nat -> a k = Fin (r k)) ->
  (forall k, (k < d)%nat -> b k = Fin (r k)) ->
  l2dist d a b = Fin 0.
Proof.
  intros Ha Hb. unfold l2dist.
  rewrite (vsum_zero d).
  - simpl. destruct (Rlt_dec 0 0); [lra|]. f_equal. apply sqrt_0.
  - intros k Hk. rewrite Ha, Hb by exact Hk.
    unfold vsq, vsub. simpl. f_equal. ring.
Qed.

End ScalarFacts.

(** *** [compute_cost_matrix] *)

Lemma alloc_run {B} (t : tensor) (k : loc -> M B) (h : heap) :
  bind (alloc t) k h = k (length h) (h ++ [t]).
Proof. reflexivity. Qed.

Lemma compute_cost_matrix_run (self : BPA) (x : loc) (h : heap) (xt : tensor) :
  h !! x = Some xt ->
  compute_cost_matrix self x h =
  if String.eqb (distance_metric self) "euclidean" then
    match tmax (cdist_xx xt) with
    | Ok mx => (Ok (S (length h)),
                h ++ [cdist_xx xt; tdiv_scalar (cdist_xx xt) mx])
    | Raise e => (Raise e, h ++ [cdist_xx xt])
    end
  else if String.eqb (distance_metric self) "cosine" then
    (Ok (S (length h)), h ++ [normalize xt; one_minus (gram (normalize xt))])
  else (Raise UnboundLocalError, h).
Proof.
  intros Hx. unfold compute_cost_matrix.
  destruct (String.eqb (distance_metric self) "euclidean").
  - rewrite (bind_run _ _ _ _ _ (read_run _ _ _ Hx)). rewrite alloc_run.
    rewrite (bind_run _ _ _ _ _ (read_run _ _ _ (lookup_fresh h _ []))).
    unfold bind at 1, lift. destruct (tmax (cdist_xx xt)) as [mx|e].
    + unfold alloc. rewrite length_app, <- app_assoc. simpl.
      rewrite Nat.add_1_r. reflexivity.
    + reflexivity.
  - destruct (String.eqb (distance_metric self) "cosine"); [|reflexivity].
    rewrite (bind_run _ _ _ _ _ (read_run _ _ _ Hx)). rewrite alloc_run.
    rewrite (bind_run _ _ _ _ _ (read_run _ _ _ (lookup_fresh h _ []))).
    unfold alloc. rewrite length_app, <- app_assoc. simpl.
    rewrite Nat.add_1_r. reflexivity.
Qed.

Lemma lookup_second_fresh (h : heap) (a b : tensor) (k : heap) :
  (h ++ a :: b :: k) !! S (length h) = Some b.
Proof.
  change (h ++ a :: b :: k) with (h ++ [a] ++ b :: k).
  rewrite app_assoc.
  replace (S (length h)) with (length (h ++ [a]))
    by (rewrite length_app; simpl; lia).
  apply lookup_fresh.
Qed.

Lemma tmax_populated_cdist (xt : tensor) :
  populated xt -> exists mx, tmax (cdist_xx xt) = Ok mx.
Proof.
  intros Hp. unfold tmax.
  destruct (numel (cdist_xx xt) =? 0)%nat eqn:E; [|eexists; reflexivity].
  apply Nat.eqb_eq in E.
  destruct xt as [n d e | b n d e]; unfold numel in E; simpl in *; nia.
Qed.

(** When every row is the same row of numbers, every pairwise distance is
    zero, so is the global maximum, and the scaling divides zero by zero. *)
Lemma euclidean_cost_identical_rows (n d : nat) (e : nat -> nat -> val)
    (r : nat -> R) :
  (0 < n)%nat ->
  (forall i k, (i < n)%nat -> (k < d)%nat -> e i k = Fin (r k)) ->
  tmax (cdist_xx (T2 n d e)) = Ok (Fin 0)
  /\ entries (eq NaN) (tdiv_scalar (cdist_xx (T2 n d e)) (Fin 0)).
Proof.
  intros Hn Hrows.
  assert (forall i j, (i < n)%nat -> (j < n)%nat ->
                      l2dist d (e i) (e j) = Fin 0) as Hdist.
  { intros i j Hi Hj. apply (l2dist_same d _ _ r); intros k Hk;
      apply Hrows; assumption. }
  split.
  - unfold tmax.
    destruct (numel (cdist_xx (T2 n d e)) =? 0)%nat eqn:E.
    + apply Nat.eqb_eq in E. unfold numel in E. simpl in E. nia.
    + f_equal. simpl. apply vmaxs_const; [exact Hn|]. intros i Hi.
      apply vmaxs_const; [exact Hn|]. intros j Hj. apply Hdist; assumption.
  - simpl. intros i j Hi Hj. rewrite Hdist by assumption.
    simpl. rewrite sgn_zero. reflexivity.
Qed.

(** C3, the code at a failing input: for the euclidean metric and the two
    equal feature rows [[1, 2]] and [[1, 2]], [compute_cost_matrix] returns
    a 2 by 2 tensor whose four entries are [NaN], none of them in [[0, 1]]. *)
Theorem euclidean_cost_equal_rows_nan :
  exists (C : loc) (h' : heap) (e : nat -> nat -> val),
    compute_cost_matrix
      (mkBPA 10 "euclidean" true false (Fin (/ 10)) true (Fin 1000))
      O [of_rows [[Fin 1; Fin 2]; [Fin 1; Fin 2]]] = (Ok C, h')
    /\ h' !! C = Some (T2 2 2 e)
    /\ entries (fun v => v = NaN /\ ~ in_range 0 1 v) (T2 2 2 e).
Proof.
  destruct (euclidean_cost_identical_rows 2 2
              (fun i j => nth j (nth i [[Fin 1; Fin 2]; [Fin 1; Fin 2]] []) NaN)
              (fun k => match k with O => 1%R | _ => 2%R end))
    as [Hmax Hnan].
  { lia. }
  { intros [|[|i]] [|[|k]] Hi Hk; try lia; reflexivity. }
  rewrite (compute_cost_matrix_run _ O
             [of_rows [[Fin 1; Fin 2]; [Fin 1; Fin 2]]]
             (of_rows [[Fin 1; Fin 2]; [Fin 1; Fin 2]]) eq_refl).
  simpl String.eqb. cbv iota.
  change (of_rows [[Fin 1; Fin 2]; [Fin 1; Fin 2]])
    with (T2 2 2 (fun i j =>
                    nth j (nth i [[Fin 1; Fin 2]; [Fin 1; Fin 2]] []) NaN)).
  rewrite Hmax.
  eexists _, _, _. split; [reflexivity|]. split; [reflexivity|].
  intros i j Hi Hj. pose proof (Hnan i j Hi Hj) as Hij.
  match goal with
  | |- ?v = NaN /\ _ => assert (v = NaN) as -> by (symmetry; exact Hij)
  end.
  split; [reflexivity | intros [[] _]].
Qed.

(** *** [forward] *)

Section Forward.

Variable log_sinkhorn : tensor -> val -> Z -> tensor.
Variable self : BPA.

Lemma masked_cost_inv (x : loc) (h : heap) (C : loc) (hC : heap) :
  masked_cost self x h = (Ok C, hC) ->
  exists C0 h0,
    compute_cost_matrix self x h = (Ok C0, h0)
    /\ mask_diagonal self C0 (diagonal_val self) h0 = (Ok C, hC).
Proof.
  unfold masked_cost, bind.
  destruct (compute_cost_matrix self x h) as [[C0|e] h0]; [|discriminate].
  intros Hm. exists C0, h0. split; [reflexivity | exact Hm].
Qed.

(** The store after [forward_scaled], from the store after the masking. *)
Lemma forward_scaled_run (x : loc) (h : heap) (C : loc) (hC : heap)
    (Cm : tensor) :
  masked_cost self x h = (Ok C, hC) -> hC !! C = Some Cm ->
  let L := log_sinkhorn Cm (ot_reg self) (sinkhorn_iterations self) in
  let P := recovered self L in
  forward_scaled log_sinkhorn self x h =
  if max_scale self then
    if (dim P <=? 2)%nat then
      match tmax P with
      | Ok z => (Ok (S (S (length hC))), hC ++ [L; P; tdiv_scalar P z])
      | Raise e => (Raise e, hC ++ [L; P])
      end
    else
      match amax12 P with
      | Ok zt =>
          match tdiv_b11 P zt with
          | Ok Q => (Ok (S (S (S (length hC)))), hC ++ [L; P; zt; Q])
          | Raise e => (Raise e, hC ++ [L; P; zt])
          end
      | Raise e => (Raise e, hC ++ [L; P])
      end
  else (Ok (S (length hC)), hC ++ [L; P]).
Proof.
  intros Hm HC L P.
  destruct (masked_cost_inv x h C hC Hm) as (C0 & h0 & Hcost & Hmask).
  unfold forward_scaled.
  rewrite (bind_run _ _ _ _ _ Hcost), (bind_run _ _ _ _ _ Hmask).
  rewrite (bind_run _ _ _ _ _ (read_run _ _ _ HC)). rewrite alloc_run.
  rewrite (bind_run _ _ _ _ _ (read_run _ _ _ (lookup_fresh hC _ []))).
  fold L.
  assert (forall B (k : loc -> M B),
            bind (if sigmoid self then alloc (tsigmoid L) else alloc (texp L))
                 k (hC ++ [L])
            = k (S (length hC)) (hC ++ [L; P])) as Hrec.
  { intros B k. subst P. unfold recovered.
    destruct (sigmoid self); rewrite alloc_run, length_app, <- app_assoc;
      simpl; rewrite Nat.add_1_r; reflexivity. }
  rewrite Hrec. clear Hrec.
  destruct (max_scale self); [|reflexivity].
  rewrite (bind_run _ _ _ _ _
             (read_run _ _ _ (lookup_second_fresh hC L P []))).
  destruct (dim P <=? 2)%nat.
  - unfold bind at 1, lift. destruct (tmax P) as [z|e]; [|reflexivity].
    unfold alloc. rewrite length_app, <- app_assoc. simpl.
    rewrite Nat.add_comm. reflexivity.
  - unfold bind at 1, lift. destruct (amax12 P) as [zt|e]; [|reflexivity].
    rewrite alloc_run.
    assert ((hC ++ [L; P]) ++ [zt] = hC ++ [L; P; zt]) as ->
      by (rewrite <- app_assoc; reflexivity).
    assert (length (hC ++ [L; P]) = S (S (length hC))) as ->
      by (rewrite length_app; simpl; lia).
    assert ((hC ++ [L; P; zt]) !! S (S (length hC)) = Some zt) as Hz.
    { change (hC ++ [L; P; zt]) with (hC ++ [L; P] ++ [zt]).
      rewrite app_assoc.
      replace (S (S (length hC))) with (length (hC ++ [L; P]))
        by (rewrite length_app; simpl; lia).
      apply lookup_fresh. }
    rewrite (bind_run _ _ _ _ _ (read_run _ _ _ Hz)).
    unfold bind at 1, lift. destruct (tdiv_b11 P zt) as [Q|e]; [|reflexivity].
    unfold alloc. rewrite length_app, <- app_assoc. simpl.
    replace (length hC + 3)%nat with (S (S (S (length hC)))) by lia.
    reflexivity.
Qed.


Lemma shape_tmap (f : val -> val) (t : tensor) : shape (tmap f t) = shape t.
Proof. destruct t; reflexivity. Qed.

Lemma shape_recovered (L : tensor) : shape (recovered self L) = shape L.
Proof. unfold recovered. destruct (sigmoid self); apply shape_tmap. Qed.

Lemma shape_set_diag (v : val) (t : tensor) : shape (set_diag v t) = shape t.
Proof. destruct t; reflexivity. Qed.

Lemma shape_tdiv_scalar (t : tensor) (z : val) :
  shape (tdiv_scalar t z) = shape t.
Proof. destruct t; reflexivity. Qed.

Lemma square_shape_trailing (t xt : tensor) :
  shape t = square_shape xt -> trailing_square t = true.
Proof.
  destruct t, xt; simpl; intros Heq; inversion Heq; subst;
    apply Nat.eqb_refl.
Qed.

Lemma diag_all_set_diag (v : val) (t : tensor) : diag_all v (set_diag v t).
Proof. destruct t; simpl; intros; rewrite Nat.eqb_refl; reflexivity. Qed.

Lemma insert_second_fresh (h : heap) (a b b' : tensor) :
  <[S (length h):=b']> (h ++ [a; b]) = h ++ [a; b'].
Proof.
  change (h ++ [a; b]) with (h ++ [a] ++ [b]). rewrite app_assoc.
  replace (S (length h)) with (length (h ++ [a]) + 0)%nat
    by (rewrite length_app; simpl; lia).
  rewrite insert_app_r. rewrite <- app_assoc. reflexivity.
Qed.

(** The masked cost matrix of a populated feature tensor: the cost matrix
    [C0] of the configured metric, with its diagonal set to [diagonal_val]
    when masking is enabled; it is the second tensor the call allocates. *)
Lemma masked_cost_run (x : loc) (h : heap) (xt : tensor) :
  distance_metric self = "cosine" \/ distance_metric self = "euclidean" ->
  h !! x = Some xt -> populated xt ->
  exists tmp C0,
    (distance_metric self = "cosine"
     /\ C0 = one_minus (gram (normalize xt))
     \/ distance_metric self = "euclidean"
        /\ exists mx, tmax (cdist_xx xt) = Ok mx
                      /\ C0 = tdiv_scalar (cdist_xx xt) mx)
    /\ shape C0 = square_shape xt
    /\ masked_cost self x h =
       (Ok (S (length h)),
        h ++ [tmp; if mask_diag self then set_diag (diagonal_val self) C0
                   else C0]).
Proof.
  intros Hm Hx Hp. unfold masked_cost.
  assert (exists tmp C0,
    (distance_metric self = "cosine"
     /\ C0 = one_minus (gram (normalize xt))
     \/ distance_metric self = "euclidean"
        /\ exists mx, tmax (cdist_xx xt) = Ok mx
                      /\ C0 = tdiv_scalar (cdist_xx xt) mx)
    /\ shape C0 = square_shape xt
    /\ compute_cost_matrix self x h = (Ok (S (length h)), h ++ [tmp; C0]))
    as (tmp & C0 & Hcase & Hshape & Hrun).
  { rewrite (compute_cost_matrix_run self x h xt Hx).
    destruct Hm as [Hm | Hm]; rewrite Hm; simpl String.eqb; cbv iota.
    - eexists _, _. split; [left; split; reflexivity|].
      split; [destruct xt; reflexivity | reflexivity].
    - destruct (tmax_populated_cdist xt Hp) as [mx Hmx]. rewrite Hmx.
      eexists _, _. split; [right; split; [reflexivity|]|].
      + exists mx. split; reflexivity.
      + split; [destruct xt; reflexivity | reflexivity]. }
  exists tmp, C0. split; [exact Hcase|]. split; [exact Hshape|].
  rewrite (bind_run _ _ _ _ _ Hrun).
  rewrite (mask_diagonal_run self _ _ _ C0 (lookup_second_fresh h tmp C0 [])).
  destruct (mask_diag self); [|reflexivity].
  rewrite (square_shape_trailing C0 xt Hshape). rewrite andb_false_r.
  rewrite insert_second_fresh. reflexivity.
Qed.

End Forward.

(** *** Maxima *)

Section Maxima.

Local Open Scope R_scope.

Lemma rmaxs_step (n : nat) (g : nat -> R) :
  rmaxs (S (S n)) g = Rmax (rmaxs (S n) g) (g (S n)).
Proof. reflexivity. Qed.

Lemma rmaxs_upper (n : nat) (g : nat -> R) (i : nat) :
  (i < n)%nat -> g i <= rmaxs n g.
Proof.
  induction n as [|n IH]; intros Hi; [lia|].
  destruct n as [|n].
  - assert (i = O) as -> by lia. simpl. lra.
  - rewrite rmaxs_step. destruct (Nat.eq_dec i (S n)) as [->|Hne].
    + apply Rmax_r.
    + eapply Rle_trans; [apply IH; lia | apply Rmax_l].
Qed.

Lemma rmaxs_attained (n : nat) (g : nat -> R) :
  (0 < n)%nat -> exists i, (i < n)%nat /\ rmaxs n g = g i.
Proof.
  induction n as [|n IH]; intros Hn; [lia|].
  destruct n as [|n].
  - exists O. split; [lia | reflexivity].
  - rewrite rmaxs_step.
    destruct (Rle_dec (rmaxs (S n) g) (g (S n))) as [Hle|Hgt].
    + exists (S n). split; [lia|]. apply Rmax_right. exact Hle.
    + destruct IH as (i & Hi & Heq); [lia|].
      exists i. split; [lia|]. rewrite Rmax_left by lra. exact Heq.
Qed.

Lemma vmaxs_numbers (n : nat) (f : nat -> val) (g : nat -> R) :
  (0 < n)%nat -> (forall i, (i < n)%nat -> f i = Fin (g i)) ->
  vmaxs n f = Fin (rmaxs n g).
Proof.
  induction n as [|n IH]; intros Hn Hf; [lia|].
  destruct n as [|n].
  - simpl. rewrite Hf by lia. reflexivity.
  - rewrite rmaxs_step. change (vmaxs (S (S n)) f)
      with (vmax (vmaxs (S n) f) (f (S n))).
    rewrite IH by (try lia; intros i Hi; apply Hf; lia).
    rewrite Hf by lia. reflexivity.
Qed.

(** The maximum of a non-empty matrix of positive numbers is a positive
    number, bounds every entry and is one of the entries. *)
Lemma matrix_max_positive (n m : nat) (e : nat -> nat -> val) :
  (0 < n)%nat -> (0 < m)%nat ->
  (forall i j, (i < n)%nat -> (j < m)%nat -> exists p, e i j = Fin p /\ 0 < p) ->
  exists Z,
    0 < Z
    /\ vmaxs n (fun i => vmaxs m (e i)) = Fin Z
    /\ (forall i j, (i < n)%nat -> (j < m)%nat ->
                    exists p, e i j = Fin p /\ 0 < p <= Z)
    /\ (exists i j, (i < n)%nat /\ (j < m)%nat /\ e i j = Fin Z).
Proof.
  intros Hn Hm Hpos.
  assert (forall i j, (i < n)%nat -> (j < m)%nat ->
                      e i j = Fin (rval (e i j)) /\ 0 < rval (e i j)) as Hval.
  { intros i j Hi Hj. destruct (Hpos i j Hi Hj) as (p & -> & Hp).
    split; [reflexivity | exact Hp]. }
  set (g := fun i j => rval (e i j)).
  set (row := fun i => rmaxs m (g i)).
  assert (forall i, (i < n)%nat -> vmaxs m (e i) = Fin (row i)) as Hrow.
  { intros i Hi. apply vmaxs_numbers; [exact Hm|].
    intros j Hj. apply Hval; assumption. }
  exists (rmaxs n row).
  destruct (rmaxs_attained n row Hn) as (i0 & Hi0 & Heq0).
  destruct (rmaxs_attained m (g i0) Hm) as (j0 & Hj0 & Heq1).
  assert (rmaxs n row = g i0 j0) as Hatt
    by (rewrite Heq0; unfold row; exact Heq1).
  split; [|split; [|split]].
  - rewrite Hatt. apply Hval; assumption.
  - apply vmaxs_numbers; assumption.
  - intros i j Hi Hj. exists (g i j). destruct (Hval i j Hi Hj) as [Hf Hp].
    split; [exact Hf|]. split; [exact Hp|].
    eapply Rle_trans; [apply (rmaxs_upper m (g i) j Hj)|].
    apply (rmaxs_upper n row i Hi).
  - exists i0, j0. split; [exact Hi0|]. split; [exact Hj0|].
    rewrite Hatt. apply Hval; assumption.
Qed.

Lemma vdiv_unit (p Z : R) :
  0 < p <= Z -> in_range 0 1 (vdiv (Fin p) (Fin Z)).
Proof.
  intros [Hp HZ]. simpl. rewrite sgn_pos by lra. unfold in_range. simpl.
  assert (0 < / Z) by (apply Rinv_0_lt_compat; lra).
  assert (Z * / Z = 1) by (apply Rinv_r; lra).
  unfold Rdiv. split; nra.
Qed.

Lemma vdiv_self (Z : R) : 0 < Z -> vdiv (Fin Z) (Fin Z) = Fin 1.
Proof.
  intros HZ. simpl. rewrite sgn_pos by lra. f_equal.
  unfold Rdiv. apply Rinv_r. lra.
Qed.

Lemma vexp_positive (v : val) :
  finite v -> exists p, vexp v = Fin p /\ 0 < p.
Proof.
  destruct v; simpl; try contradiction. intros _.
  eexists. split; [reflexivity | apply exp_pos].
Qed.

Lemma vsigmoid_positive (v : val) :
  finite v -> exists p, vsigmoid v = Fin p /\ 0 < p.
Proof.
  destruct v; simpl; try contradiction. intros _.
  eexists. split; [reflexivity|]. apply Rinv_0_lt_compat.
  pose proof (exp_pos (- r)). lra.
Qed.

End Maxima.

(** Dividing a non-empty tensor of positive numbers by its slice-wise
    maxima gives entries in [[0, 1]], and the value one in every slice. *)
Lemma scaled_unit_range (P Q : tensor) :
  numel P <> O ->
  entries (fun v => exists p, v = Fin p /\ (0 < p)%R) P ->
  scaled_by_slice_max P Q ->
  entries (in_range 0 1) Q /\ slice_attains (Fin 1) Q.
Proof.
  intros Hne Hpos Hsc.
  destruct P as [n m e | b n m e], Q as [n' m' e' | b' n' m' e'];
    simpl in Hsc; try contradiction.
  - destruct Hsc as (-> & -> & He').
    unfold numel in Hne. simpl in Hne.
    destruct (matrix_max_positive n m e) as (Z & HZ & Hmax & Hle & Hat);
      [lia | lia | exact Hpos |].
    rewrite Hmax in He'. split.
    + intros i j Hi Hj. rewrite He'.
      destruct (Hle i j Hi Hj) as (p & -> & Hp). apply vdiv_unit. exact Hp.
    + destruct Hat as (i & j & Hi & Hj & Heq). exists i, j.
      split; [exact Hi|]. split; [exact Hj|].
      rewrite He', Heq. apply vdiv_self. exact HZ.
  - destruct Hsc as (-> & -> & -> & He').
    unfold numel in Hne. simpl in Hne.
    assert (forall k, (k < b)%nat -> exists Z,
              (0 < Z)%R
              /\ vmaxs n (fun i => vmaxs m (e k i)) = Fin Z
              /\ (forall i j, (i < n)%nat -> (j < m)%nat ->
                              exists p, e k i j = Fin p /\ (0 < p <= Z)%R)
              /\ (exists i j, (i < n)%nat /\ (j < m)%nat /\ e k i j = Fin Z))
      as Hslice.
    { intros k Hk. apply matrix_max_positive; [lia | lia |].
      intros i j Hi Hj. apply Hpos; assumption. }
    split.
    + intros k i j Hk Hi Hj. rewrite He'.
      destruct (Hslice k Hk) as (Z & HZ & Hmax & Hle & _). simpl.
      rewrite Hmax. destruct (Hle i j Hi Hj) as (p & -> & Hp).
      apply vdiv_unit. exact Hp.
    + intros k Hk.
      destruct (Hslice k Hk) as (Z & HZ & Hmax & _ & i & j & Hi & Hj & Heq).
      exists i, j. split; [exact Hi|]. split; [exact Hj|].
      rewrite He'. simpl. rewrite Hmax, Heq. apply vdiv_self. exact HZ.
Qed.

Lemma numel_square (t xt : tensor) :
  populated xt -> shape t = square_shape xt -> numel t <> O.
Proof.
  intros Hp Hs. unfold numel. rewrite Hs.
  destruct xt; simpl in *; nia.
Qed.

(** The range normalisation as a value: the global maximum for a matrix,
    one maximum per batch element for a batch. *)
Lemma scale_value (P : tensor) :
  numel P <> O ->
  if (dim P <=? 2)%nat
  then exists z, tmax P = Ok z /\ scaled_by_slice_max P (tdiv_scalar P z)
  else exists zt Q, amax12 P = Ok zt /\ tdiv_b11 P zt = Ok Q
                    /\ scaled_by_slice_max P Q /\ shape Q = shape P.
Proof.
  intros Hne. destruct P as [n m e | b n m e].
  - change (dim (T2 n m e) <=? 2)%nat with true. cbv iota.
    unfold tmax. destruct (numel (T2 n m e) =? 0)%nat eqn:E.
    + apply Nat.eqb_eq in E. contradiction.
    + eexists. split; [reflexivity|]. simpl. repeat split.
  - change (dim (T3 b n m e) <=? 2)%nat with false. cbv iota.
    unfold numel in Hne. simpl in Hne. unfold amax12.
    destruct ((n =? 0) || (m =? 0))%nat eqn:E.
    + apply orb_true_iff in E.
      destruct E as [E|E]; apply Nat.eqb_eq in E; nia.
    + eexists _, _. split; [reflexivity|]. simpl. rewrite Nat.eqb_refl.
      split; [reflexivity|]. repeat split.
Qed.

Section Pipeline.

Variable log_sinkhorn : tensor -> val -> Z -> tensor.

(** The solver returns a plan of the shape of its cost matrix. *)
Hypothesis log_sinkhorn_shape :
  forall C reg it, shape (log_sinkhorn C reg it) = shape C.

Variable self : BPA.

Lemma forward_scaled_ok (x : loc) (h : heap) (C : loc) (hC : heap)
    (Cm : tensor) :
  masked_cost self x h = (Ok C, hC) -> hC !! C = Some Cm -> numel Cm <> O ->
  let P := recovered self
             (log_sinkhorn Cm (ot_reg self) (sinkhorn_iterations self)) in
  exists l h' Q,
    forward_scaled log_sinkhorn self x h = (Ok l, h')
    /\ h' !! l = Some Q
    /\ shape Q = shape Cm
    /\ if max_scale self then scaled_by_slice_max P Q else Q = P.
Proof.
  intros Hm HC Hne P.
  rewrite (forward_scaled_run log_sinkhorn self x h C hC Cm Hm HC).
  fold P.
  assert (shape P = shape Cm) as HshP
    by (unfold P; rewrite shape_recovered; apply log_sinkhorn_shape).
  assert (numel P <> O) as HneP by (unfold numel in *; rewrite HshP; exact Hne).
  destruct (max_scale self).
  - pose proof (scale_value P HneP) as Hsv.
    destruct (dim P <=? 2)%nat.
    + destruct Hsv as (z & -> & Hsc). eexists _, _, _.
      split; [reflexivity|]. split; [|split; [|exact Hsc]].
      * rewrite lookup_app_r by lia.
        replace (S (S (length hC)) - length hC)%nat with 2%nat by lia.
        reflexivity.
      * rewrite shape_tdiv_scalar. exact HshP.
    + destruct Hsv as (zt & Q & -> & -> & Hsc & HshQ). eexists _, _, _.
      split; [reflexivity|]. split; [|split; [|exact Hsc]].
      * rewrite lookup_app_r by lia.
        replace (S (S (S (length hC))) - length hC)%nat with 3%nat by lia.
        reflexivity.
      * rewrite HshQ. exact HshP.
  - eexists _, _, _. split; [reflexivity|]. split; [|split; [exact HshP|]].
    + apply lookup_second_fresh.
    + reflexivity.
Qed.

(** C2: with a supported metric and masking enabled, for every feature
    tensor [[N,D]] or [[B,N,D]] with at least one item, [forward] returns a
    tensor of shape [[N,N]] or [[B,N,N]] whose diagonal entries are all
    exactly one, whatever [sigmoid] and [max_scale] are. *)
Theorem forward_diagonal_is_one (x : loc) (h : heap) (xt : tensor) :
  distance_metric self = "cosine" \/ distance_metric self = "euclidean" ->
  mask_diag self = true ->
  h !! x = Some xt -> populated xt ->
  exists (out : loc) (h' : heap) (A : tensor),
    forward log_sinkhorn self x h = (Ok out, h')
    /\ h' !! out = Some A
    /\ shape A = square_shape xt
    /\ diag_all (Fin 1) A.
Proof.
  intros Hmetric Hmask Hx Hp.
  destruct (masked_cost_run self x h xt Hmetric Hx Hp)
    as (tmp & C0 & _ & HshC & Hrun).
  rewrite Hmask in Hrun.
  set (Cm := set_diag (diagonal_val self) C0) in *.
  assert (shape Cm = square_shape xt) as HshCm
    by (unfold Cm; rewrite shape_set_diag; exact HshC).
  destruct (forward_scaled_ok x h _ _ Cm Hrun (lookup_second_fresh h tmp Cm []))
    as (l & h1 & Q & Hfs & Hl & HshQ & _).
  { apply (numel_square Cm xt Hp HshCm). }
  unfold forward. rewrite (bind_run _ _ _ _ _ Hfs).
  rewrite (mask_diagonal_run self l (Fin 1) h1 Q Hl), Hmask.
  rewrite HshCm in HshQ.
  rewrite (square_shape_trailing Q xt HshQ), andb_false_r.
  eexists _, _, _. split; [reflexivity|]. split; [|split].
  - apply list_lookup_insert_eq. eapply lookup_lt_Some. exact Hl.
  - rewrite shape_set_diag. exact HshQ.
  - apply diag_all_set_diag.
Qed.

End Pipeline.

(** *** The frame of [forward] *)

Section Frame.

Variable h0 : heap.

Lemma keeps_ret {A} (a : A) (Q : A -> Prop) : Q a -> keeps h0 (ret a) Q.
Proof.
  intros HQ h Hh. split; [exact Hh|]. simpl. intros a' [= <-]. exact HQ.
Qed.

Lemma keeps_raise {A} (e : exn) (Q : A -> Prop) : keeps h0 (raise e) Q.
Proof. intros h Hh. split; [exact Hh|]. simpl. discriminate. Qed.

Lemma keeps_lift {A} (o : outcome A) : keeps h0 (lift o) (fun _ => True).
Proof. intros h Hh. split; [exact Hh|]. intros; exact I. Qed.

Lemma keeps_read (l : loc) : keeps h0 (read l) (fun _ => True).
Proof.
  intros h Hh. unfold read. destruct (h !! l); (split; [exact Hh|]);
    intros; exact I.
Qed.

Lemma keeps_alloc (t : tensor) : keeps h0 (alloc t) (outside h0).
Proof.
  intros h Hh. unfold alloc. simpl. split.
  - apply prefix_app_r. exact Hh.
  - intros l [= <-]. apply prefix_length. exact Hh.
Qed.

Lemma keeps_write (l : loc) (t : tensor) :
  outside h0 l -> keeps h0 (write l t) (fun _ => True).
Proof.
  intros Hl h Hh. unfold write.
  destruct (h !! l); simpl; (split; [|intros; exact I]); [|exact Hh].
  destruct Hh as [k ->]. rewrite insert_app_r_alt by exact Hl.
  apply prefix_app_r. reflexivity.
Qed.

Lemma keeps_bind {A B} (c : M A) (k : A -> M B) (Q : A -> Prop)
    (R : B -> Prop) :
  keeps h0 c Q -> (forall a, Q a -> keeps h0 (k a) R) ->
  keeps h0 (bind c k) R.
Proof.
  intros Hc Hk h Hh. destruct (Hc h Hh) as [Hpre HQ]. unfold bind.
  destruct (c h) as [[a|e] h1]; simpl in *.
  - apply Hk; [apply HQ; reflexivity | exact Hpre].
  - split; [exact Hpre | discriminate].
Qed.

Lemma keeps_weaken {A} (c : M A) (Q R : A -> Prop) :
  keeps h0 c Q -> (forall a, Q a -> R a) -> keeps h0 c R.
Proof.
  intros Hc HQR h Hh. destruct (Hc h Hh) as [Hpre HQ].
  split; [exact Hpre|]. intros a Ha. apply HQR, HQ, Ha.
Qed.

Variable log_sinkhorn : tensor -> val -> Z -> tensor.
Variable self : BPA.

Lemma keeps_compute_cost_matrix (x : loc) :
  keeps h0 (compute_cost_matrix self x) (outside h0).
Proof.
  unfold compute_cost_matrix.
  destruct (String.eqb (distance_metric self) "euclidean").
  - eapply keeps_bind; [apply keeps_read|]. intros xt _.
    eapply keeps_bind; [apply keeps_alloc|]. intros pd _.
    eapply keeps_bind; [apply keeps_read|]. intros pdt _.
    eapply keeps_bind; [apply keeps_lift|]. intros mx _.
    apply keeps_alloc.
  - destruct (String.eqb (distance_metric self) "cosine").
    + eapply keeps_bind; [apply keeps_read|]. intros xt _.
      eapply keeps_bind; [apply keeps_alloc|]. intros xn _.
      eapply keeps_bind; [apply keeps_read|]. intros xnt _.
      apply keeps_alloc.
    + apply keeps_raise.
Qed.

(** The in-place update touches the tensor it is given, so it keeps [h0]
    when that tensor is not one of [h0]'s. *)
Lemma keeps_mask_diagonal (M : loc) (v : val) :
  outside h0 M -> keeps h0 (mask_diagonal self M v) (outside h0).
Proof.
  intros HM. unfold mask_diagonal. destruct (mask_diag self).
  - eapply keeps_bind; [apply keeps_read|]. intros t _.
    destruct (2 <? dim t)%nat.
    + eapply keeps_bind; [apply keeps_lift|]. intros t' _.
      eapply keeps_bind; [apply keeps_write; exact HM|]. intros _ _.
      apply keeps_ret. exact HM.
    + eapply keeps_bind; [apply keeps_lift|]. intros t' _.
      eapply keeps_bind; [apply keeps_write; exact HM|]. intros _ _.
      apply keeps_ret. exact HM.
  - apply keeps_ret. exact HM.
Qed.

Lemma keeps_forward_scaled (x : loc) :
  keeps h0 (forward_scaled log_sinkhorn self x) (outside h0).
Proof.
  unfold forward_scaled.
  eapply keeps_bind; [apply keeps_compute_cost_matrix|]. intros C0 HC0.
  eapply keeps_bind; [apply keeps_mask_diagonal; exact HC0|]. intros C HC.
  eapply keeps_bind; [apply keeps_read|]. intros Ct _.
  eapply keeps_bind; [apply keeps_alloc|]. intros l1 Hl1.
  eapply keeps_bind; [apply keeps_read|]. intros L _.
  eapply keeps_bind.
  { instantiate (1 := outside h0). destruct (sigmoid self); apply keeps_alloc. }
  intros l2 Hl2.
  destruct (max_scale self); [|apply keeps_ret; exact Hl2].
  eapply keeps_bind; [apply keeps_read|]. intros P _.
  destruct (dim P <=? 2)%nat.
  - eapply keeps_bind; [apply keeps_lift|]. intros z _. apply keeps_alloc.
  - eapply keeps_bind; [apply keeps_lift|]. intros zt _.
    eapply keeps_bind; [apply keeps_alloc|]. intros lz _.
    eapply keeps_bind; [apply keeps_read|]. intros z _.
    eapply keeps_bind; [apply keeps_lift|]. intros Q _.
    apply keeps_alloc.
Qed.

Lemma keeps_forward (x : loc) :
  keeps h0 (forward log_sinkhorn self x) (outside h0).
Proof.
  unfold forward.
  eapply keeps_bind; [apply keeps_forward_scaled|]. intros l Hl.
  apply keeps_mask_diagonal. exact Hl.
Qed.

End Frame.

(** C9: [forward] leaves the caller's feature tensor as it was, whether it
    returns or raises: the input location holds the same tensor afterwards,
    every other object of the caller's store is unchanged as well, and the
    tensor returned is a new object, not the input. *)
Theorem forward_keeps_input (log_sinkhorn : tensor -> val -> Z -> tensor)
    (self : BPA) (x : loc) (h : heap) (xt : tensor) :
  h !! x = Some xt ->
  snd (forward log_sinkhorn self x h) !! x = Some xt
  /\ h `prefix_of` snd (forward log_sinkhorn self x h)
  /\ forall out, fst (forward log_sinkhorn self x h) = Ok out -> out <> x.
Proof.
  intros Hx.
  destruct (keeps_forward h log_sinkhorn self x h) as [Hpre Hout];
    [reflexivity|].
  split; [|split].
  - eapply prefix_lookup_Some; [exact Hx | exact Hpre].
  - exact Hpre.
  - intros out Hrun Heq. subst out.
    apply Hout in Hrun. unfold outside in Hrun.
    apply lookup_lt_Some in Hx. lia.
Qed.

(** *** The solver of section 4.3 *)

Section Solver.

Local Open Scope R_scope.

Lemma finite_vadd (a b : val) : finite a -> finite b -> finite (vadd a b).
Proof. destruct a, b; simpl; tauto. Qed.

Lemma finite_vneg (a : val) : finite a -> finite (vneg a).
Proof. destruct a; simpl; tauto. Qed.

Lemma finite_vsub (a b : val) : finite a -> finite b -> finite (vsub a b).
Proof. intros Ha Hb. apply finite_vadd; [exact Ha | apply finite_vneg, Hb]. Qed.

Lemma finite_vdiv (a : val) (r : R) :
  finite a -> r <> 0 -> finite (vdiv a (Fin r)).
Proof.
  destruct a as [x| | |]; simpl; try tauto. intros _ Hr.
  destruct (Rtotal_order r 0) as [Hlt | [Heq | Hgt]].
  - rewrite sgn_neg by exact Hlt. exact I.
  - contradiction.
  - rewrite sgn_pos by exact Hgt. exact I.
Qed.

Lemma finite_log_size (n : nat) : (0 < n)%nat -> finite (vlog (Fin (INR n))).
Proof.
  intros Hn. simpl. rewrite sgn_pos by (apply lt_0_INR; lia). exact I.
Qed.

Lemma vsum_positive (n : nat) (f : nat -> val) :
  (0 < n)%nat ->
  (forall k, (k < n)%nat -> exists p, f k = Fin p /\ 0 < p) ->
  exists s, vsum n f = Fin s /\ 0 < s.
Proof.
  induction n as [|n IH]; intros Hn Hf; [lia|]. simpl.
  destruct (Hf n) as (p & -> & Hp); [lia|].
  destruct n as [|n].
  - simpl. eexists. split; [reflexivity | lra].
  - destruct IH as (s & -> & Hs); [lia | intros k Hk; apply Hf; lia |].
    simpl. eexists. split; [reflexivity | lra].
Qed.

Lemma finite_vmaxs (n : nat) (f : nat -> val) :
  (0 < n)%nat -> (forall i, (i < n)%nat -> finite (f i)) ->
  finite (vmaxs n f).
Proof.
  intros Hn Hf. rewrite (vmaxs_numbers n f (fun i => rval (f i)) Hn).
  - exact I.
  - intros i Hi. specialize (Hf i Hi). destruct (f i); simpl in *; tauto.
Qed.

Lemma finite_logsumexp (n : nat) (f : nat -> val) :
  (0 < n)%nat -> (forall i, (i < n)%nat -> finite (f i)) ->
  finite (Ot.logsumexp n f).
Proof.
  intros Hn Hf. unfold Ot.logsumexp.
  pose proof (finite_vmaxs n f Hn Hf) as Hmx.
  apply finite_vadd; [exact Hmx|].
  destruct (vsum_positive n (fun k => vexp (vsub (f k) (vmaxs n f))) Hn)
    as (s & -> & Hs).
  - intros k Hk. apply vexp_positive. apply finite_vsub; [apply Hf, Hk | exact Hmx].
  - simpl. rewrite sgn_pos by exact Hs. exact I.
Qed.

Variables (n m : nat) (c : nat -> nat -> val) (r : R).
Hypothesis n_pos : (0 < n)%nat.
Hypothesis m_pos : (0 < m)%nat.
Hypothesis c_finite :
  forall i j, (i < n)%nat -> (j < m)%nat -> finite (c i j).
Hypothesis r_nonzero : r <> 0.

Lemma sinkhorn_step_finite (uv : (nat -> val) * (nat -> val)) :
  potentials_finite n m uv ->
  potentials_finite n m (Ot.sinkhorn_step n m c (Fin r) uv).
Proof.
  intros [Hu Hv].
  assert (forall i, (i < n)%nat ->
            finite (fst (Ot.sinkhorn_step n m c (Fin r) uv) i)) as Hu'.
  { intros i Hi. simpl. apply finite_vsub.
    - apply finite_vneg, finite_log_size, n_pos.
    - apply finite_logsumexp; [exact m_pos|]. intros j Hj.
      apply finite_vdiv; [|exact r_nonzero].
      apply finite_vadd; [apply finite_vneg, c_finite; assumption|].
      apply Hv, Hj. }
  split; [exact Hu'|].
  intros j Hj. simpl. apply finite_vsub.
  - apply finite_vneg, finite_log_size, m_pos.
  - apply finite_logsumexp; [exact n_pos|]. intros i Hi.
    apply finite_vdiv; [|exact r_nonzero].
    apply finite_vadd; [apply finite_vneg, c_finite; assumption|].
    apply (Hu' i Hi).
Qed.

Lemma sinkhorn_plan_finite (iters : nat) (i j : nat) :
  (i < n)%nat -> (j < m)%nat ->
  finite (Ot.sinkhorn_plan n m c (Fin r) iters i j).
Proof.
  intros Hi Hj. unfold Ot.sinkhorn_plan.
  assert (potentials_finite n m
            (Nat.iter iters (Ot.sinkhorn_step n m c (Fin r))
                      (fun _ => Fin 0, fun _ => Fin 0))) as [Hu Hv].
  { induction iters as [|k IH].
    - split; intros; exact I.
    - simpl. apply sinkhorn_step_finite. exact IH. }
  apply finite_vdiv; [|exact r_nonzero].
  apply finite_vadd; [|apply Hv, Hj].
  apply finite_vadd; [apply finite_vneg, c_finite; assumption | apply Hu, Hi].
Qed.

End Solver.

Lemma ot_log_sinkhorn_shape (C : tensor) (reg : val) (it : Z) :
  shape (Ot.log_sinkhorn C reg it) = shape C.
Proof. destruct C; reflexivity. Qed.

(** On a non-empty cost matrix of numbers and a non-zero regularisation, the
    solver's plan holds numbers. *)
Lemma ot_log_sinkhorn_finite (C : tensor) (r : R) (it : Z) :
  numel C <> O -> tfinite C -> r <> 0%R ->
  tfinite (Ot.log_sinkhorn C (Fin r) it).
Proof.
  intros Hne Hfin Hr. unfold numel in Hne.
  destruct C as [n m c | b n m c]; simpl in *.
  - intros i j Hi Hj. apply sinkhorn_plan_finite; try assumption; lia.
  - intros k i j Hk Hi Hj. apply sinkhorn_plan_finite; try assumption; try lia.
    intros i' j' Hi' Hj'. apply Hfin; assumption.
Qed.

(** *** Ranges of the cost matrix *)

Section CostRange.

Local Open Scope R_scope.

Lemma vsum_numbers (n : nat) (f : nat -> val) (g : nat -> R) :
  (forall k, (k < n)%nat -> f k = Fin (g k)) -> vsum n f = Fin (rsum n g).
Proof.
  induction n as [|n IH]; intros Hf; simpl; [reflexivity|].
  rewrite IH by (intros k Hk; apply Hf; lia).
  rewrite Hf by lia. reflexivity.
Qed.

Lemma rsum_le (n : nat) (g g' : nat -> R) :
  (forall k, (k < n)%nat -> g k <= g' k) -> rsum n g <= rsum n g'.
Proof.
  induction n as [|n IH]; intros Hg; simpl; [lra|].
  assert (rsum n g <= rsum n g') by (apply IH; intros k Hk; apply Hg; lia).
  assert (g n <= g' n) by (apply Hg; lia). lra.
Qed.

Lemma rsum_squares_nonneg (n : nat) (g : nat -> R) :
  0 <= rsum n (fun k => g k * g k).
Proof.
  induction n as [|n IH]; simpl; [lra|].
  pose proof (Rle_0_sqr (g n)) as Hsq. unfold Rsqr in Hsq. lra.
Qed.

Lemma rsum_plus (n : nat) (a b : nat -> R) :
  rsum n (fun k => a k + b k) = rsum n a + rsum n b.
Proof. induction n as [|n IH]; simpl; [lra | rewrite IH; lra]. Qed.

Lemma rsum_scale (n : nat) (c : R) (a : nat -> R) :
  rsum n (fun k => c * a k) = c * rsum n a.
Proof. induction n as [|n IH]; simpl; [lra | rewrite IH; lra]. Qed.

Lemma rsum_ext (n : nat) (a b : nat -> R) :
  (forall k, (k < n)%nat -> a k = b k) -> rsum n a = rsum n b.
Proof.
  induction n as [|n IH]; intros Hab; simpl; [reflexivity|].
  rewrite IH by (intros k Hk; apply Hab; lia). rewrite Hab by lia.
  reflexivity.
Qed.

(** The inner product of two rows whose squares sum to at most one lies
    between minus one and one. *)
Lemma rsum_product_bound (n : nat) (a b : nat -> R) :
  rsum n (fun k => a k * a k) <= 1 ->
  rsum n (fun k => b k * b k) <= 1 ->
  -1 <= rsum n (fun k => a k * b k) <= 1.
Proof.
  intros Ha Hb.
  assert (rsum n (fun k => 2 * (a k * b k))
          <= rsum n (fun k => a k * a k + b k * b k)) as Hup.
  { apply rsum_le. intros k _.
    pose proof (Rle_0_sqr (a k - b k)) as Hsq. unfold Rsqr in Hsq. lra. }
  assert (rsum n (fun k => (-2) * (a k * b k))
          <= rsum n (fun k => a k * a k + b k * b k)) as Hlo.
  { apply rsum_le. intros k _.
    pose proof (Rle_0_sqr (a k + b k)) as Hsq. unfold Rsqr in Hsq. lra. }
  rewrite rsum_scale, rsum_plus in Hup, Hlo. lra.
Qed.

(** A row of numbers divided by [max (its norm, eps)] is a row of numbers
    whose squares sum to at most one. *)
Lemma normalized_row (d : nat) (a : nat -> val) (g : nat -> R) :
  (forall k, (k < d)%nat -> a k = Fin (g k)) ->
  exists N, 0 < N
    /\ (forall k, (k < d)%nat ->
          vdiv (a k) (vmax (l2norm d a) eps) = Fin (g k / N))
    /\ rsum d (fun k => (g k / N) * (g k / N)) <= 1.
Proof.
  intros Ha. set (S := rsum d (fun k => g k * g k)).
  assert (0 <= S) as HS by apply rsum_squares_nonneg.
  assert (l2norm d a = Fin (sqrt S)) as Hnorm.
  { unfold l2norm. rewrite (vsum_numbers d _ (fun k => g k * g k)).
    - simpl. fold S. destruct (Rlt_dec S 0); [lra | reflexivity].
    - intros k Hk. rewrite Ha by exact Hk. reflexivity. }
  set (N := Rmax (sqrt S) (/ 1000000000000)).
  assert (0 < N) as HN.
  { unfold N. eapply Rlt_le_trans; [|apply Rmax_r].
    apply Rinv_0_lt_compat. lra. }
  exists N. split; [exact HN|]. split.
  - intros k Hk. rewrite Hnorm, Ha by exact Hk. unfold eps. simpl.
    fold N. rewrite sgn_pos by exact HN. reflexivity.
  - assert (S <= N * N) as Hle.
    { assert (sqrt S <= N) by apply Rmax_l.
      pose proof (sqrt_pos S) as Hsp.
      rewrite <- (sqrt_sqrt S HS) at 1. nra. }
    rewrite (rsum_ext d _ (fun k => / (N * N) * (g k * g k))).
    + rewrite rsum_scale. fold S.
      assert (0 < / (N * N)) by (apply Rinv_0_lt_compat; nra).
      assert (/ (N * N) * (N * N) = 1) by (apply Rinv_l; nra).
      nra.
    + intros k _. field. lra.
Qed.

(** An entry of the cosine cost matrix of two rows of numbers. *)
Lemma cosine_entry_range (d : nat) (a b : nat -> val) (ga gb : nat -> R) :
  (forall k, (k < d)%nat -> a k = Fin (ga k)) ->
  (forall k, (k < d)%nat -> b k = Fin (gb k)) ->
  in_range 0 2
    (vsub (Fin 1)
       (dot d (fun k => vdiv (a k) (vmax (l2norm d a) eps))
              (fun k => vdiv (b k) (vmax (l2norm d b) eps)))).
Proof.
  intros Ha Hb.
  destruct (normalized_row d a ga Ha) as (Na & HNa & Hra & Hsa).
  destruct (normalized_row d b gb Hb) as (Nb & HNb & Hrb & Hsb).
  unfold dot.
  rewrite (vsum_numbers d _ (fun k => (ga k / Na) * (gb k / Nb))).
  - pose proof (rsum_product_bound d _ _ Hsa Hsb) as [Hlo Hhi].
    unfold in_range. simpl. lra.
  - intros k Hk. rewrite Hra, Hrb by exact Hk. reflexivity.
Qed.

(** The distance of two rows of numbers is a non-negative number. *)
Lemma l2dist_number (d : nat) (a b : nat -> val) :
  (forall k, (k < d)%nat -> finite (a k)) ->
  (forall k, (k < d)%nat -> finite (b k)) ->
  exists p, l2dist d a b = Fin p /\ 0 <= p.
Proof.
  intros Ha Hb. unfold l2dist.
  rewrite (vsum_numbers d _
             (fun k => (rval (a k) - rval (b k)) * (rval (a k) - rval (b k)))).
  - simpl. pose proof (rsum_squares_nonneg d (fun k => rval (a k) - rval (b k))).
    destruct (Rlt_dec _ 0); [lra|].
    eexists. split; [reflexivity | apply sqrt_pos].
  - intros k Hk. specialize (Ha k Hk). specialize (Hb k Hk).
    destruct (a k), (b k); simpl in *; try contradiction.
    unfold vsq, vsub. simpl. f_equal; ring.
Qed.

Lemma vdiv_unit_nonneg (p Z : R) :
  0 <= p <= Z -> 0 < Z -> in_range 0 1 (vdiv (Fin p) (Fin Z)).
Proof.
  intros [Hp HpZ] HZ. simpl. rewrite sgn_pos by lra. unfold in_range. simpl.
  assert (0 < / Z) by (apply Rinv_0_lt_compat; lra).
  assert (Z * / Z = 1) by (apply Rinv_r; lra).
  unfold Rdiv. split; nra.
Qed.

Lemma matrix_max_numbers (n m : nat) (e : nat -> nat -> val)
    (g : nat -> nat -> R) :
  (0 < n)%nat -> (0 < m)%nat ->
  (forall i j, (i < n)%nat -> (j < m)%nat -> e i j = Fin (g i j)) ->
  vmaxs n (fun i => vmaxs m (e i)) = Fin (rmaxs n (fun i => rmaxs m (g i)))
  /\ forall i j, (i < n)%nat -> (j < m)%nat ->
                 g i j <= rmaxs n (fun i => rmaxs m (g i)).
Proof.
  intros Hn Hm He. split.
  - apply vmaxs_numbers; [exact Hn|]. intros i Hi.
    apply vmaxs_numbers; [exact Hm|]. intros j Hj. apply He; assumption.
  - intros i j Hi Hj.
    eapply Rle_trans; [apply (rmaxs_upper m (g i) j Hj)|].
    apply (rmaxs_upper n (fun i => rmaxs m (g i)) i Hi).
Qed.

(** When the largest pairwise distance is a positive number, the euclidean
    cost matrix of a feature tensor of numbers has its entries in [[0, 1]]. *)
Lemma euclidean_cost_unit_range (xt : tensor) (Z : R) :
  tfinite xt -> tmax (cdist_xx xt) = Ok (Fin Z) -> 0 < Z ->
  entries (in_range 0 1) (tdiv_scalar (cdist_xx xt) (Fin Z)).
Proof.
  intros Hfin Hmax HZ. unfold tmax in Hmax.
  destruct (numel (cdist_xx xt) =? 0)%nat eqn:E; [discriminate|].
  apply Nat.eqb_neq in E. injection Hmax as Hmax.
  destruct xt as [n d e | b n d e]; unfold numel in E; simpl in *.
  - assert (forall i j, (i < n)%nat -> (j < n)%nat ->
              l2dist d (e i) (e j) = Fin (rval (l2dist d (e i) (e j)))
              /\ 0 <= rval (l2dist d (e i) (e j))) as Hd.
    { intros i j Hi Hj.
      destruct (l2dist_number d (e i) (e j)) as (p & -> & Hp);
        [intros k Hk; apply Hfin; assumption ..|].
      split; [reflexivity | exact Hp]. }
    destruct (matrix_max_numbers n n (fun i j => l2dist d (e i) (e j))
                (fun i j => rval (l2dist d (e i) (e j))))
      as [Heq Hub]; [lia | lia | intros; apply Hd; assumption |].
    rewrite Heq in Hmax. injection Hmax as Hmax.
    intros i j Hi Hj. destruct (Hd i j Hi Hj) as [-> Hp].
    apply vdiv_unit_nonneg; [|exact HZ]. split; [exact Hp|].
    rewrite <- Hmax. apply (Hub i j Hi Hj).
  - assert (forall k i j, (k < b)%nat -> (i < n)%nat -> (j < n)%nat ->
              l2dist d (e k i) (e k j) = Fin (rval (l2dist d (e k i) (e k j)))
              /\ 0 <= rval (l2dist d (e k i) (e k j))) as Hd.
    { intros k i j Hk Hi Hj.
      destruct (l2dist_number d (e k i) (e k j)) as (p & -> & Hp);
        [intros c Hc; apply Hfin; assumption ..|].
      split; [reflexivity | exact Hp]. }
    set (g := fun k i j => rval (l2dist d (e k i) (e k j))) in *.
    assert (forall k, (k < b)%nat ->
              vmaxs n (fun i => vmaxs n (fun j => l2dist d (e k i) (e k j)))
              = Fin (rmaxs n (fun i => rmaxs n (g k i)))) as Hslice.
    { intros k Hk.
      apply (matrix_max_numbers n n (fun i j => l2dist d (e k i) (e k j)) (g k));
        [lia | lia |]. intros i j Hi Hj. apply Hd; assumption. }
    rewrite (vmaxs_numbers b _ (fun k => rmaxs n (fun i => rmaxs n (g k i))))
      in Hmax by (try lia; exact Hslice).
    injection Hmax as Hmax.
    intros k i j Hk Hi Hj. destruct (Hd k i j Hk Hi Hj) as [-> Hp].
    apply vdiv_unit_nonneg; [|exact HZ]. split; [exact Hp|].
    rewrite <- Hmax.
    eapply Rle_trans;
      [|apply (rmaxs_upper b (fun k => rmaxs n (fun i => rmaxs n (g k i))) k Hk)].
    eapply Rle_trans; [apply (rmaxs_upper n (g k i) j Hj)|].
    apply (rmaxs_upper n (fun i => rmaxs n (g k i)) i Hi).
Qed.

(** The cosine cost matrix of a feature tensor of numbers has its entries in
    [[0, 2]]. *)
Lemma cosine_cost_range (xt : tensor) :
  tfinite xt -> entries (in_range 0 2) (one_minus (gram (normalize xt))).
Proof.
  intros Hfin. destruct xt as [n d e | b n d e]; simpl in *.
  - intros i j Hi Hj.
    apply (cosine_entry_range d (e i) (e j)
             (fun k => rval (e i k)) (fun k => rval (e j k)));
      intros k Hk; [specialize (Hfin i k Hi Hk) | specialize (Hfin j k Hj Hk)];
      destruct (e _ k); simpl in *; tauto.
  - intros c i j Hc Hi Hj.
    apply (cosine_entry_range d (e c i) (e c j)
             (fun k => rval (e c i k)) (fun k => rval (e c j k)));
      intros k Hk;
      [specialize (Hfin c i k Hc Hi Hk) | specialize (Hfin c j k Hc Hj Hk)];
      destruct (e c _ k); simpl in *; tauto.
Qed.

End CostRange.

(** *** The masked cost matrix *)

(** Supporting C7 away from the degenerate input: with masking enabled and
    a feature tensor of numbers, the diagonal of the masked cost matrix is
    the sentinel 1000 and every off-diagonal cost is a number of [[0, 2]]
    (cosine) or [[0, 1]] (euclidean, when the largest distance is positive),
    hence below the sentinel. *)
Lemma masked_cost_sentinel_dominates (self : BPA) (x : loc) (h : heap)
    (xt : tensor) :
  mask_diag self = true -> diagonal_val self = Fin 1000 ->
  h !! x = Some xt -> populated xt -> tfinite xt ->
  distance_metric self = "cosine"
  \/ (distance_metric self = "euclidean"
      /\ exists Z, tmax (cdist_xx xt) = Ok (Fin Z) /\ (0 < Z)%R) ->
  exists (C : loc) (hC : heap) (Cm : tensor),
    masked_cost self x h = (Ok C, hC)
    /\ hC !! C = Some Cm
    /\ diag_all (Fin 1000) Cm
    /\ offdiag_all (fun v => in_range 0 2 v /\ vlt v (Fin 1000)) Cm.
Proof.
  intros Hmask Hdv Hx Hp Hfin Hmetric.
  assert (distance_metric self = "cosine"
          \/ distance_metric self = "euclidean") as Hsup
    by (destruct Hmetric as [?|[? _]]; [left | right]; assumption).
  destruct (masked_cost_run self x h xt Hsup Hx Hp)
    as (tmp & C0 & Hcase & HshC & Hrun).
  rewrite Hmask, Hdv in Hrun.
  assert (entries (in_range 0 2) C0) as Hrange.
  { destruct Hcase as [[_ ->] | [He (mx & Hmx & ->)]].
    - apply cosine_cost_range. exact Hfin.
    - destruct Hmetric as [Hc | [_ (Z & HZ & Hpos)]]; [congruence|].
      rewrite HZ in Hmx. injection Hmx as <-.
      pose proof (euclidean_cost_unit_range xt Z Hfin HZ Hpos) as H01.
      destruct (tdiv_scalar (cdist_xx xt) (Fin Z)); simpl in *; intros;
        (destruct (H01 _ _ ltac:(eassumption) ltac:(eassumption)) as [Hlo Hhi]
         || destruct (H01 _ _ _ ltac:(eassumption) ltac:(eassumption)
                          ltac:(eassumption)) as [Hlo Hhi]);
        (split; [exact Hlo|]);
        match goal with
        | |- vle ?v _ => destruct v; simpl in *; try tauto; lra
        end. }
  eexists _, _, _. split; [exact Hrun|].
  split; [apply lookup_second_fresh|]. split; [apply diag_all_set_diag|].
  destruct C0 as [n m e | b n m e]; simpl in *.
  - intros i j Hi Hj Hne. apply Nat.eqb_neq in Hne. rewrite Hne.
    destruct (Hrange i j Hi Hj) as [Hlo Hhi]. split; [split; assumption|].
    destruct (e i j); simpl in *; try tauto. lra.
  - intros k i j Hk Hi Hj Hne. apply Nat.eqb_neq in Hne. rewrite Hne.
    destruct (Hrange k i j Hk Hi Hj) as [Hlo Hhi]. split; [split; assumption|].
    destruct (e k i j); simpl in *; try tauto. lra.
Qed.

(** C7, the code at a failing input: for the euclidean metric with masking
    enabled and the two equal feature rows [[1, 2]] and [[1, 2]], the masked
    cost matrix has the sentinel 1000 on its diagonal and [NaN] off the
    diagonal, and [NaN] is not below the sentinel. *)
Theorem masked_cost_equal_rows_nan :
  exists (C : loc) (hC : heap) (e : nat -> nat -> val),
    masked_cost (mkBPA 10 "euclidean" true false (Fin (/ 10)) true (Fin 1000))
                O [of_rows [[Fin 1; Fin 2]; [Fin 1; Fin 2]]] = (Ok C, hC)
    /\ hC !! C = Some (T2 2 2 e)
    /\ diag_all (Fin 1000) (T2 2 2 e)
    /\ offdiag_all (fun v => v = NaN /\ ~ vlt v (Fin 1000)
                             /\ ~ in_range 0 1 v) (T2 2 2 e).
Proof.
  destruct (euclidean_cost_identical_rows 2 2
              (fun i j => nth j (nth i [[Fin 1; Fin 2]; [Fin 1; Fin 2]] []) NaN)
              (fun k => match k with O => 1%R | _ => 2%R end))
    as [Hmax Hnan].
  { lia. }
  { intros [|[|i]] [|[|k]] Hi Hk; try lia; reflexivity. }
  unfold masked_cost.
  assert (compute_cost_matrix
            (mkBPA 10 "euclidean" true false (Fin (/ 10)) true (Fin 1000))
            O [of_rows [[Fin 1; Fin 2]; [Fin 1; Fin 2]]]
          = (Ok 2%nat,
             [of_rows [[Fin 1; Fin 2]; [Fin 1; Fin 2]];
              cdist_xx (of_rows [[Fin 1; Fin 2]; [Fin 1; Fin 2]]);
              tdiv_scalar (cdist_xx (of_rows [[Fin 1; Fin 2]; [Fin 1; Fin 2]]))
                          (Fin 0)])) as Hcost.
  { rewrite (compute_cost_matrix_run _ O
               [of_rows [[Fin 1; Fin 2]; [Fin 1; Fin 2]]]
               (of_rows [[Fin 1; Fin 2]; [Fin 1; Fin 2]]) eq_refl).
    simpl String.eqb. cbv iota.
    change (of_rows [[Fin 1; Fin 2]; [Fin 1; Fin 2]])
      with (T2 2 2 (fun i j =>
                      nth j (nth i [[Fin 1; Fin 2]; [Fin 1; Fin 2]] []) NaN)).
    rewrite Hmax. reflexivity. }
  rewrite (bind_run _ _ _ _ _ Hcost).
  eexists _, _, _. split; [reflexivity|]. split; [reflexivity|].
  split.
  - intros i Hi _. simpl. rewrite Nat.eqb_refl. reflexivity.
  - intros i j Hi Hj Hne. pose proof (Hnan i j Hi Hj) as Hij.
    apply Nat.eqb_neq in Hne. cbv beta. rewrite Hne.
    match goal with
    | |- ?v = NaN /\ _ => assert (v = NaN) as -> by (symmetry; exact Hij)
    end.
    split; [reflexivity|]. split; [intros [] | intros [[] _]].
Qed.

(** *** The statements at concrete inputs *)

Lemma entries_range_finite (lo hi : R) (t : tensor) :
  entries (in_range lo hi) t -> tfinite t.
Proof.
  destruct t as [n m e | b n m e]; simpl; intros Hr; intros;
    [destruct (Hr i j) as [Hlo Hhi] | destruct (Hr k i j) as [Hlo Hhi]];
    try assumption; revert Hlo Hhi;
    match goal with |- _ -> _ -> finite ?v => destruct v; simpl; tauto end.
Qed.

Lemma tfinite_set_diag (r : R) (t : tensor) :
  tfinite t -> tfinite (set_diag (Fin r) t).
Proof.
  destruct t as [n m e | b n m e]; simpl; intros Hf; intros;
    destruct (_ =? _)%nat; try exact I; apply Hf; assumption.
Qed.

Lemma forward_diagonal_is_one_witness :
  exists (out : loc) (h' : heap) (A : tensor),
    forward Ot.log_sinkhorn
      (mkBPA 10 "cosine" true false (Fin (/ 10)) true (Fin 1000)) O
      [of_rows [[Fin 1; Fin 0]; [Fin 0; Fin 1]; [Fin 1; Fin 1]]] = (Ok out, h')
    /\ h' !! out = Some A
    /\ shape A = square_shape
                   (of_rows [[Fin 1; Fin 0]; [Fin 0; Fin 1]; [Fin 1; Fin 1]])
    /\ diag_all (Fin 1) A.
Proof.
  apply (forward_diagonal_is_one Ot.log_sinkhorn ot_log_sinkhorn_shape
           (mkBPA 10 "cosine" true false (Fin (/ 10)) true (Fin 1000)) O
           [of_rows [[Fin 1; Fin 0]; [Fin 0; Fin 1]; [Fin 1; Fin 1]]]
           (of_rows [[Fin 1; Fin 0]; [Fin 0; Fin 1]; [Fin 1; Fin 1]])).
  - left. reflexivity.
  - reflexivity.
  - reflexivity.
  - simpl. lia.
Defined.

Lemma forward_keeps_input_witness :
  snd (forward Ot.log_sinkhorn
         (mkBPA 10 "cosine" true false (Fin (/ 10)) true (Fin 1000)) O
         [of_rows [[Fin 1; Fin 0]; [Fin 0; Fin 1]]]) !! O
  = Some (of_rows [[Fin 1; Fin 0]; [Fin 0; Fin 1]])
  /\ [of_rows [[Fin 1; Fin 0]; [Fin 0; Fin 1]]]
     `prefix_of`
     snd (forward Ot.log_sinkhorn
            (mkBPA 10 "cosine" true false (Fin (/ 10)) true (Fin 1000)) O
            [of_rows [[Fin 1; Fin 0]; [Fin 0; Fin 1]]])
  /\ forall out,
       fst (forward Ot.log_sinkhorn
              (mkBPA 10 "cosine" true false (Fin (/ 10)) true (Fin 1000)) O
              [of_rows [[Fin 1; Fin 0]; [Fin 0; Fin 1]]]) = Ok out ->
       out <> O.
Proof.
  apply (forward_keeps_input Ot.log_sinkhorn
           (mkBPA 10 "cosine" true false (Fin (/ 10)) true (Fin 1000)) O
           [of_rows [[Fin 1; Fin 0]; [Fin 0; Fin 1]]]
           (of_rows [[Fin 1; Fin 0]; [Fin 0; Fin 1]])).
  reflexivity.
Defined.

(** *** The degenerate euclidean input, downstream *)

(** The cost matrix of the two equal rows [[1, 2]] and [[1, 2]] for the
    euclidean metric: the run of [compute_cost_matrix] and its entries. *)
Lemma equal_rows_cost_run :
  compute_cost_matrix
    (mkBPA 10 "euclidean" true false (Fin (/ 10)) true (Fin 1000))
    O [of_rows [[Fin 1; Fin 2]; [Fin 1; Fin 2]]]
  = (Ok 2%nat,
     [of_rows [[Fin 1; Fin 2]; [Fin 1; Fin 2]];
      cdist_xx (of_rows [[Fin 1; Fin 2]; [Fin 1; Fin 2]]);
      tdiv_scalar (cdist_xx (of_rows [[Fin 1; Fin 2]; [Fin 1; Fin 2]]))
                  (Fin 0)])
  /\ entries (eq NaN)
       (tdiv_scalar (cdist_xx (of_rows [[Fin 1; Fin 2]; [Fin 1; Fin 2]]))
                    (Fin 0)).
Proof.
  destruct (euclidean_cost_identical_rows 2 2
              (fun i j => nth j (nth i [[Fin 1; Fin 2]; [Fin 1; Fin 2]] []) NaN)
              (fun k => match k with O => 1%R | _ => 2%R end))
    as [Hmax Hnan].
  { lia. }
  { intros [|[|i]] [|[|k]] Hi Hk; try lia; reflexivity. }
  split; [|exact Hnan].
  rewrite (compute_cost_matrix_run _ O
             [of_rows [[Fin 1; Fin 2]; [Fin 1; Fin 2]]]
             (of_rows [[Fin 1; Fin 2]; [Fin 1; Fin 2]]) eq_refl).
  simpl String.eqb. cbv iota.
  change (of_rows [[Fin 1; Fin 2]; [Fin 1; Fin 2]])
    with (T2 2 2 (fun i j =>
                    nth j (nth i [[Fin 1; Fin 2]; [Fin 1; Fin 2]] []) NaN)).
  rewrite Hmax. reflexivity.
Qed.

(** C6, the code at a failing input: for the euclidean metric and the two
    equal feature rows [[1, 2]] and [[1, 2]], [compute_cost_matrix] returns
    a 2 by 2 tensor whose entries are all [NaN], so no entry compares equal
    to its mirror entry. *)
Theorem cost_matrix_equal_rows_mirror_unequal :
  exists (C : loc) (h' : heap) (e : nat -> nat -> val),
    compute_cost_matrix
      (mkBPA 10 "euclidean" true false (Fin (/ 10)) true (Fin 1000))
      O [of_rows [[Fin 1; Fin 2]; [Fin 1; Fin 2]]] = (Ok C, h')
    /\ h' !! C = Some (T2 2 2 e)
    /\ forall i j, (i < 2)%nat -> (j < 2)%nat ->
                   e i j = NaN /\ ~ veq (e i j) (e j i).
Proof.
  destruct equal_rows_cost_run as [Hrun Hnan]. rewrite Hrun.
  eexists _, _, _. split; [reflexivity|]. split; [reflexivity|].
  intros i j Hi Hj. pose proof (Hnan i j Hi Hj) as Hij. cbv beta.
  match goal with
  | |- ?v = NaN /\ _ => assert (v = NaN) as -> by (symmetry; exact Hij)
  end.
  split; [reflexivity | intros []].
Qed.

Lemma vadd_nan_r (a : val) : vadd a NaN = NaN.
Proof. destruct a; reflexivity. Qed.

Lemma vsub_nan_r (a : val) : vsub a NaN = NaN.
Proof. destruct a; reflexivity. Qed.

Lemma vmaxs_nan (n : nat) (f : nat -> val) (i : nat) :
  (i < n)%nat -> f i = NaN -> vmaxs n f = NaN.
Proof.
  induction n as [|n IH]; intros Hi Hf; [lia|]. simpl.
  destruct (Nat.eq_dec i n) as [->|Hne].
  - rewrite Hf. destruct (vmaxs n f); reflexivity.
  - rewrite IH by (try lia; exact Hf). reflexivity.
Qed.

(** A [NaN] cost in row [i] makes, after one round or more, every entry of
    row [i] of the plan [NaN]. *)
Lemma sinkhorn_plan_nan_row (n m : nat) (c : nat -> nat -> val) (reg : val)
    (k i j' : nat) :
  (j' < m)%nat -> c i j' = NaN ->
  forall j, Ot.sinkhorn_plan n m c reg (S k) i j = NaN.
Proof.
  intros Hj' Hc j. unfold Ot.sinkhorn_plan. simpl Nat.iter.
  set (uv := Nat.iter k (Ot.sinkhorn_step n m c reg) _).
  assert (fst (Ot.sinkhorn_step n m c reg uv) i = NaN) as Hu.
  { simpl. unfold Ot.logsumexp.
    rewrite (vmaxs_nan m _ j' Hj') by (rewrite Hc; reflexivity).
    apply vsub_nan_r. }
  rewrite Hu, vadd_nan_r. reflexivity.
Qed.

(** C4, the code at a failing input: for the euclidean metric, the default
    flags ([max_scale] and [mask_diag] enabled) and the two equal feature
    rows [[1, 2]] and [[1, 2]], the tensor [forward] holds before the last
    diagonal fix-up has [NaN] in every entry: no entry lies in [[0, 1]] and
    none is equal to one.  (The [NaN] off-diagonal costs make the plan of the
    solver of section 4.3 [NaN], and so its exponential, its maximum and the
    quotient.) *)
Theorem forward_scaled_equal_rows_nan :
  exists (l : loc) (h' : heap) (e : nat -> nat -> val),
    forward_scaled Ot.log_sinkhorn
      (mkBPA 10 "euclidean" true false (Fin (/ 10)) true (Fin 1000))
      O [of_rows [[Fin 1; Fin 2]; [Fin 1; Fin 2]]] = (Ok l, h')
    /\ h' !! l = Some (T2 2 2 e)
    /\ entries (fun v => v = NaN /\ ~ in_range 0 1 v /\ ~ veq v (Fin 1))
               (T2 2 2 e).
Proof.
  destruct equal_rows_cost_run as [Hcost Hnan].
  set (self := mkBPA 10 "euclidean" true false (Fin (/ 10)) true (Fin 1000)).
  set (x := of_rows [[Fin 1; Fin 2]; [Fin 1; Fin 2]]) in *.
  set (Cm := set_diag (Fin 1000) (tdiv_scalar (cdist_xx x) (Fin 0))).
  assert (masked_cost self O [x]
          = (Ok 2%nat, [x; cdist_xx x; Cm])) as Hmask.
  { unfold masked_cost. rewrite (bind_run _ _ _ _ _ Hcost). reflexivity. }
  rewrite (forward_scaled_run Ot.log_sinkhorn self O [x] 2%nat
             [x; cdist_xx x; Cm] Cm Hmask eq_refl).
  cbv zeta.
  set (L := Ot.log_sinkhorn Cm (ot_reg self) (sinkhorn_iterations self)).
  assert (exists p, recovered self L = T2 2 2 p
                    /\ forall i j, (i < 2)%nat -> (j < 2)%nat -> p i j = NaN)
    as (p & HP & Hp).
  { eexists. split; [reflexivity|]. intros i j Hi Hj. cbv beta.
    change (Z.to_nat (sinkhorn_iterations self)) with 10%nat.
    rewrite (sinkhorn_plan_nan_row 2 2 _ _ 9 i (1 - i)); [reflexivity | lia |].
    assert (1 - i < 2)%nat as Hi' by lia.
    pose proof (Hnan i (1 - i)%nat Hi Hi') as Hoff.
    assert ((i =? 1 - i)%nat = false) as -> by (apply Nat.eqb_neq; lia).
    symmetry. exact Hoff. }
  rewrite HP. change (max_scale self) with true. cbv iota.
  change (dim (T2 2 2 p) <=? 2)%nat with true. cbv iota.
  change (tmax (T2 2 2 p))
    with (Ok (vmaxs 2 (fun i => vmaxs 2 (p i)))).
  cbv iota.
  eexists _, _, _. split; [reflexivity|]. split; [reflexivity|].
  intros i j Hi Hj. cbv beta. rewrite (Hp i j Hi Hj).
  split; [reflexivity|]. split; [intros [[] _] | intros []].
Qed.

(** ** Further properties of the class *)

(** *** The constructor and the metric dispatch *)

(** X1: an object returned by the constructor has a supported, lowercase
    metric, a positive iteration count, the sentinel 1000, and the
    regularisation and flags it was given. *)
Theorem init_establishes_invariant (m : string) (reg : val) (it : Z)
    (sg md ms : bool) (self : BPA) :
  __init__ m reg it sg md ms = Ok self ->
  (distance_metric self = "cosine" \/ distance_metric self = "euclidean")
  /\ distance_metric self = lower m
  /\ (0 < sinkhorn_iterations self)%Z
  /\ sinkhorn_iterations self = it
  /\ diagonal_val self = Fin 1000
  /\ ot_reg self = reg
  /\ sigmoid self = sg /\ mask_diag self = md /\ max_scale self = ms.
Proof.
  unfold __init__.
  destruct (bool_decide (lower m ∈ supported_distances)) eqn:Hm; simpl;
    [|discriminate].
  destruct (0 <? it)%Z eqn:Hit; [|discriminate].
  intros [= <-]. simpl.
  apply bool_decide_eq_true in Hm. apply supported_cases in Hm.
  apply Z.ltb_lt in Hit. repeat split; assumption.
Qed.

Lemma init_establishes_invariant_witness :
  let self := mkBPA 5 "euclidean" false true (Fin 2) false (Fin 1000) in
  (distance_metric self = "cosine" \/ distance_metric self = "euclidean")
  /\ distance_metric self = lower "Euclidean"
  /\ (0 < sinkhorn_iterations self)%Z
  /\ sinkhorn_iterations self = 5%Z
  /\ diagonal_val self = Fin 1000
  /\ ot_reg self = Fin 2
  /\ sigmoid self = true /\ mask_diag self = false /\ max_scale self = false.
Proof.
  intros self.
  apply (init_establishes_invariant "Euclidean" (Fin 2) 5 true false false).
  reflexivity.
Defined.

(** X2: [compute_cost_matrix] ends at its unbound local variable exactly when
    the stored metric is neither name, whatever the input is; the store is
    then as it was. *)
Theorem cost_matrix_unbound_iff_unsupported (self : BPA) (x : loc) (h : heap) :
  (fst (compute_cost_matrix self x h) = Raise UnboundLocalError
   <-> distance_metric self <> "euclidean" /\ distance_metric self <> "cosine")
  /\ (fst (compute_cost_matrix self x h) = Raise UnboundLocalError ->
      snd (compute_cost_matrix self x h) = h).
Proof.
  unfold compute_cost_matrix.
  destruct (String.eqb_spec (distance_metric self) "euclidean") as [He|He].
  - assert (fst (bind (read x) (fun xt =>
              bind (alloc (cdist_xx xt)) (fun pairwise_dist =>
              bind (read pairwise_dist) (fun pd =>
              bind (lift (tmax pd)) (fun mx =>
              alloc (tdiv_scalar pd mx))))) h) <> Raise UnboundLocalError)
      as Hno.
    { unfold bind at 1, read.
      destruct (h !! x) as [xt|]; [|simpl; discriminate].
      rewrite alloc_run.
      rewrite (bind_run _ _ _ _ _ (read_run _ _ _ (lookup_fresh h _ []))).
      unfold bind, lift, tmax.
      destruct (numel (cdist_xx xt) =? 0)%nat; simpl; discriminate. }
    split; [split|]; intros H; try contradiction.
    destruct H as [H _]. contradiction.
  - destruct (String.eqb_spec (distance_metric self) "cosine") as [Hc|Hc].
    + assert (fst (bind (read x) (fun xt =>
                bind (alloc (normalize xt)) (fun x_norm =>
                bind (read x_norm) (fun xn =>
                alloc (one_minus (gram xn))))) h) <> Raise UnboundLocalError)
        as Hno.
      { unfold bind at 1, read.
        destruct (h !! x) as [xt|]; [|simpl; discriminate].
        rewrite alloc_run.
        rewrite (bind_run _ _ _ _ _ (read_run _ _ _ (lookup_fresh h _ []))).
        simpl. discriminate. }
      split; [split|]; intros H; try contradiction.
      destruct H as [_ H]. contradiction.
    + split; [split|]; intros; try reflexivity. split; assumption.
Qed.

(** *** The euclidean cost matrix *)

Section EuclideanCost.

Local Open Scope R_scope.




End EuclideanCost.



(** X4: for the euclidean metric, a feature tensor without items (or an
    empty batch) makes [compute_cost_matrix] raise the runtime error of
    [max()] on an empty tensor, and [forward] raises it too. *)
Theorem euclidean_empty_input_raises
    (log_sinkhorn : tensor -> val -> Z -> tensor) (self : BPA) (x : loc)
    (h : heap) (xt : tensor) :
  distance_metric self = "euclidean" ->
  h !! x = Some xt -> ~ populated xt ->
  fst (compute_cost_matrix self x h) = Raise RuntimeError
  /\ fst (forward log_sinkhorn self x h) = Raise RuntimeError.
Proof.
  intros Hm Hx Hempty.
  assert (compute_cost_matrix self x h
          = (Raise RuntimeError, h ++ [cdist_xx xt])) as Hrun.
  { rewrite (compute_cost_matrix_run self x h xt Hx), Hm.
    simpl String.eqb. cbv iota. unfold tmax.
    assert (numel (cdist_xx xt) = O) as ->; [|reflexivity].
    unfold numel. destruct xt as [n d e | b n d e]; simpl in *; nia. }
  split; [rewrite Hrun; reflexivity|].
  unfold forward, forward_scaled.
  rewrite (bind_raise _ _ _ _ _ (bind_raise _ _ _ _ _ Hrun)). reflexivity.
Qed.

Lemma euclidean_empty_input_raises_witness :
  fst (compute_cost_matrix
         (mkBPA 10 "euclidean" true false (Fin (/ 10)) true (Fin 1000)) O
         [T2 0 3 (fun _ _ => Fin 0)]) = Raise RuntimeError
  /\ fst (forward Ot.log_sinkhorn
            (mkBPA 10 "euclidean" true false (Fin (/ 10)) true (Fin 1000)) O
            [T2 0 3 (fun _ _ => Fin 0)]) = Raise RuntimeError.
Proof.
  apply (euclidean_empty_input_raises Ot.log_sinkhorn
           (mkBPA 10 "euclidean" true false (Fin (/ 10)) true (Fin 1000)) O
           [T2 0 3 (fun _ _ => Fin 0)] (T2 0 3 (fun _ _ => Fin 0))).
  - reflexivity.
  - reflexivity.
  - simpl. lia.
Defined.

(** X5: [compute_cost_matrix] changes no tensor the caller holds, whether it
    returns or raises, and the cost matrix it returns is a new object. *)
Theorem cost_matrix_keeps_store (self : BPA) (x : loc) (h : heap) :
  h `prefix_of` snd (compute_cost_matrix self x h)
  /\ forall C, fst (compute_cost_matrix self x h) = Ok C -> h !! C = None.
Proof.
  destruct (keeps_compute_cost_matrix h self x h) as [Hpre Hout];
    [reflexivity|].
  split; [exact Hpre|]. intros C HC. apply Hout in HC. unfold outside in HC.
  apply lookup_ge_None. exact HC.
Qed.

(** *** The cosine cost matrix *)

Section CosineCost.

Local Open Scope R_scope.

Lemma rsum_zero (n : nat) (g : nat -> R) :
  (forall k, (k < n)%nat -> g k = 0) -> rsum n g = 0.
Proof.
  induction n as [|n IH]; intros Hg; simpl; [reflexivity|].
  rewrite IH by (intros k Hk; apply Hg; lia). rewrite Hg by lia. lra.
Qed.

(** The norm of a row of numbers and the row [F.normalize] makes of it. *)
Lemma normalized_row_value (d : nat) (a : nat -> val) (g : nat -> R) :
  (forall k, (k < d)%nat -> a k = Fin (g k)) ->
  l2norm d a = Fin (sqrt (rsum d (fun k => g k * g k)))
  /\ forall k, (k < d)%nat ->
       vdiv (a k) (vmax (l2norm d a) eps)
       = Fin (g k / Rmax (sqrt (rsum d (fun k => g k * g k)))
                         (/ 1000000000000)).
Proof.
  intros Ha. set (S := rsum d (fun k => g k * g k)).
  assert (0 <= S) as HS by apply rsum_squares_nonneg.
  assert (l2norm d a = Fin (sqrt S)) as Hnorm.
  { unfold l2norm. rewrite (vsum_numbers d _ (fun k => g k * g k)).
    - simpl. fold S. destruct (Rlt_dec S 0); [lra | reflexivity].
    - intros k Hk. rewrite Ha by exact Hk. reflexivity. }
  split; [exact Hnorm|].
  intros k Hk. rewrite Hnorm, Ha by exact Hk. unfold eps. simpl.
  rewrite sgn_pos; [reflexivity|].
  eapply Rlt_le_trans; [|apply Rmax_r]. apply Rinv_0_lt_compat. lra.
Qed.

(** A row of zeros has cosine cost one to every row of numbers. *)
Lemma cosine_zero_row_cost (d : nat) (a b : nat -> val) :
  (forall k, (k < d)%nat -> a k = Fin 0) ->
  (forall k, (k < d)%nat -> finite (b k)) ->
  vsub (Fin 1)
       (dot d (fun k => vdiv (a k) (vmax (l2norm d a) eps))
              (fun k => vdiv (b k) (vmax (l2norm d b) eps))) = Fin 1.
Proof.
  intros Ha Hfin.
  assert (forall k, (k < d)%nat -> b k = Fin (rval (b k))) as Hb.
  { intros k Hk. specialize (Hfin k Hk). destruct (b k); simpl in *; tauto. }
  destruct (normalized_row_value d a (fun _ => 0) Ha) as [_ Hra].
  destruct (normalized_row_value d b (fun k => rval (b k)) Hb) as [_ Hrb].
  unfold dot. rewrite (vsum_numbers d _ (fun _ => 0)).
  - rewrite rsum_zero by reflexivity. unfold vsub. simpl. f_equal. lra.
  - intros k Hk. rewrite Hra, Hrb by exact Hk. simpl. f_equal.
    unfold Rdiv. ring.
Qed.

End CosineCost.

(** X7: in the cosine cost matrix of features that are numbers, a row of
    zeros has cost exactly one to every row, itself included, in both index
    orders: the [eps] of [F.normalize] keeps its normalised row at zero. *)
Theorem cosine_cost_zero_row (self : BPA) (x : loc) (h : heap) (xt : tensor) :
  distance_metric self = "cosine" ->
  h !! x = Some xt -> tfinite xt ->
  exists (C : loc) (h' : heap) (Ct : tensor),
    compute_cost_matrix self x h = (Ok C, h')
    /\ h' !! C = Some Ct
    /\ forall k i, is_row xt k i ->
         (forall c, (c < width xt)%nat -> row xt k i c = Fin 0) ->
         forall j, is_row xt k j ->
                   entry Ct k i j = Fin 1 /\ entry Ct k j i = Fin 1.
Proof.
  intros Hm Hx Hfin.
  rewrite (compute_cost_matrix_run self x h xt Hx), Hm.
  simpl String.eqb. cbv iota.
  eexists _, _, _. split; [reflexivity|].
  split; [apply lookup_second_fresh|].
  destruct xt as [n d e | b n d e]; simpl in *.
  - intros _ i Hi Hzero j Hj. unfold entry. simpl. split.
    + apply cosine_zero_row_cost;
        [exact Hzero | intros c Hc; apply Hfin; assumption].
    + rewrite dot_sym. apply cosine_zero_row_cost;
        [exact Hzero | intros c Hc; apply Hfin; assumption].
  - intros k i [Hk Hi] Hzero j [_ Hj]. unfold entry. simpl. split.
    + apply cosine_zero_row_cost;
        [exact Hzero | intros c Hc; apply Hfin; assumption].
    + rewrite dot_sym. apply cosine_zero_row_cost;
        [exact Hzero | intros c Hc; apply Hfin; assumption].
Qed.

Lemma cosine_cost_zero_row_witness :
  exists (C : loc) (h' : heap) (Ct : tensor),
    compute_cost_matrix
      (mkBPA 10 "cosine" true false (Fin (/ 10)) true (Fin 1000)) O
      [of_rows [[Fin 0; Fin 0]; [Fin 3; Fin 4]]] = (Ok C, h')
    /\ h' !! C = Some Ct
    /\ forall k i, is_row (of_rows [[Fin 0; Fin 0]; [Fin 3; Fin 4]]) k i ->
         (forall c,
            (c < width (of_rows [[Fin 0; Fin 0]; [Fin 3; Fin 4]]))%nat ->
            row (of_rows [[Fin 0; Fin 0]; [Fin 3; Fin 4]]) k i c = Fin 0) ->
         forall j, is_row (of_rows [[Fin 0; Fin 0]; [Fin 3; Fin 4]]) k j ->
                   entry Ct k i j = Fin 1 /\ entry Ct k j i = Fin 1.
Proof.
  apply (cosine_cost_zero_row
           (mkBPA 10 "cosine" true false (Fin (/ 10)) true (Fin 1000)) O
           [of_rows [[Fin 0; Fin 0]; [Fin 3; Fin 4]]]
           (of_rows [[Fin 0; Fin 0]; [Fin 3; Fin 4]])).
  - reflexivity.
  - reflexivity.
  - intros [|[|i]] [|[|j]] Hi Hj; simpl in *; try lia; exact I.
Defined.

(** *** [cosine_similarity] *)

Lemma cosine_similarity_run (x : loc) (h : heap) (xt : tensor) :
  h !! x = Some xt ->
  cosine_similarity x h =
  (Ok (S (length h)), h ++ [normalize xt; gram (normalize xt)]).
Proof.
  intros Hx. unfold cosine_similarity.
  rewrite (bind_run _ _ _ _ _ (read_run _ _ _ Hx)). rewrite alloc_run.
  rewrite (bind_run _ _ _ _ _ (read_run _ _ _ (lookup_fresh h _ []))).
  unfold alloc. rewrite length_app, <- app_assoc. simpl.
  rewrite Nat.add_1_r. reflexivity.
Qed.

(** The inner product of the normalised row of zeros with the normalised
    row of any row of numbers is zero. *)
Lemma gram_zero_row (d : nat) (a b : nat -> val) :
  (forall k, (k < d)%nat -> a k = Fin 0) ->
  (forall k, (k < d)%nat -> finite (b k)) ->
  dot d (fun k => vdiv (a k) (vmax (l2norm d a) eps))
        (fun k => vdiv (b k) (vmax (l2norm d b) eps)) = Fin 0.
Proof.
  intros Ha Hfin.
  assert (forall k, (k < d)%nat -> b k = Fin (rval (b k))) as Hb.
  { intros k Hk. specialize (Hfin k Hk). destruct (b k); simpl in *; tauto. }
  destruct (normalized_row_value d a (fun _ => 0%R) Ha) as [_ Hra].
  destruct (normalized_row_value d b (fun k => rval (b k)) Hb) as [_ Hrb].
  unfold dot. rewrite (vsum_numbers d _ (fun _ => 0%R)).
  - rewrite rsum_zero by reflexivity. reflexivity.
  - intros k Hk. rewrite Hra, Hrb by exact Hk. simpl. f_equal.
    unfold Rdiv. ring.
Qed.

(** X8: [cosine_similarity] returns a new tensor of shape [[N,N]] or
    [[B,N,N]] and changes no tensor the caller holds; for features that are
    numbers, a row of zeros has similarity exactly zero (not [NaN]) to every
    row, itself included. *)
Theorem cosine_similarity_new_tensor_zero_row (x : loc) (h : heap)
    (xt : tensor) :
  h !! x = Some xt -> tfinite xt ->
  exists (Sim : loc) (h' : heap) (St : tensor),
    cosine_similarity x h = (Ok Sim, h')
    /\ h' !! Sim = Some St
    /\ shape St = square_shape xt
    /\ h `prefix_of` h'
    /\ h !! Sim = None
    /\ forall k i, is_row xt k i ->
         (forall c, (c < width xt)%nat -> row xt k i c = Fin 0) ->
         forall j, is_row xt k j ->
                   entry St k i j = Fin 0 /\ entry St k j i = Fin 0.
Proof.
  intros Hx Hfin. rewrite (cosine_similarity_run x h xt Hx).
  eexists _, _, _. split; [reflexivity|].
  split; [apply lookup_second_fresh|].
  split; [destruct xt; reflexivity|].
  split; [apply prefix_app_r; reflexivity|].
  split; [apply lookup_ge_None; lia|].
  destruct xt as [n d e | b n d e]; simpl in *.
  - intros _ i Hi Hzero j Hj. unfold entry. simpl. split.
    + apply gram_zero_row; [exact Hzero | intros c Hc; apply Hfin; assumption].
    + rewrite dot_sym. apply gram_zero_row;
        [exact Hzero | intros c Hc; apply Hfin; assumption].
  - intros k i [Hk Hi] Hzero j [_ Hj]. unfold entry. simpl. split.
    + apply gram_zero_row; [exact Hzero | intros c Hc; apply Hfin; assumption].
    + rewrite dot_sym. apply gram_zero_row;
        [exact Hzero | intros c Hc; apply Hfin; assumption].
Qed.

Lemma cosine_similarity_new_tensor_zero_row_witness :
  exists (Sim : loc) (h' : heap) (St : tensor),
    cosine_similarity O [of_rows [[Fin 0; Fin 0]; [Fin 1; Fin 1]]]
    = (Ok Sim, h')
    /\ h' !! Sim = Some St
    /\ shape St = square_shape (of_rows [[Fin 0; Fin 0]; [Fin 1; Fin 1]])
    /\ [of_rows [[Fin 0; Fin 0]; [Fin 1; Fin 1]]] `prefix_of` h'
    /\ [of_rows [[Fin 0; Fin 0]; [Fin 1; Fin 1]]] !! Sim = None
    /\ forall k i, is_row (of_rows [[Fin 0; Fin 0]; [Fin 1; Fin 1]]) k i ->
         (forall c,
            (c < width (of_rows [[Fin 0; Fin 0]; [Fin 1; Fin 1]]))%nat ->
            row (of_rows [[Fin 0; Fin 0]; [Fin 1; Fin 1]]) k i c = Fin 0) ->
         forall j, is_row (of_rows [[Fin 0; Fin 0]; [Fin 1; Fin 1]]) k j ->
                   entry St k i j = Fin 0 /\ entry St k j i = Fin 0.
Proof.
  apply (cosine_similarity_new_tensor_zero_row O
           [of_rows [[Fin 0; Fin 0]; [Fin 1; Fin 1]]]
           (of_rows [[Fin 0; Fin 0]; [Fin 1; Fin 1]])).
  - reflexivity.
  - intros [|[|i]] [|[|j]] Hi Hj; simpl in *; try lia; exact I.
Defined.

(** X9: the cosine cost matrix is one minus the cosine similarity: on the
    same input, the tensor [compute_cost_matrix] returns for the cosine
    metric is [1 - S] for the tensor [S] that [cosine_similarity] returns. *)
Theorem cosine_cost_is_one_minus_similarity (self : BPA) (x : loc)
    (h : heap) (xt : tensor) :
  distance_metric self = "cosine" -> h !! x = Some xt ->
  exists (C : loc) (hC : heap) (Sim : loc) (hS : heap) (St : tensor),
    cosine_similarity x h = (Ok Sim, hS)
    /\ hS !! Sim = Some St
    /\ compute_cost_matrix self x h = (Ok C, hC)
    /\ hC !! C = Some (one_minus St).
Proof.
  intros Hm Hx.
  rewrite (cosine_similarity_run x h xt Hx).
  rewrite (compute_cost_matrix_run self x h xt Hx), Hm.
  simpl String.eqb. cbv iota.
  eexists _, _, _, _, _. split; [reflexivity|].
  split; [apply lookup_second_fresh|].
  split; [reflexivity | apply lookup_second_fresh].
Qed.

Lemma cosine_cost_is_one_minus_similarity_witness :
  exists (C : loc) (hC : heap) (Sim : loc) (hS : heap) (St : tensor),
    cosine_similarity O [of_rows [[Fin 1; Fin 0]; [Fin 1; Fin 1]]] = (Ok Sim, hS)
    /\ hS !! Sim = Some St
    /\ compute_cost_matrix
         (mkBPA 10 "cosine" true false (Fin (/ 10)) true (Fin 1000)) O
         [of_rows [[Fin 1; Fin 0]; [Fin 1; Fin 1]]] = (Ok C, hC)
    /\ hC !! C = Some (one_minus St).
Proof.
  apply (cosine_cost_is_one_minus_similarity
           (mkBPA 10 "cosine" true false (Fin (/ 10)) true (Fin 1000)) O
           [of_rows [[Fin 1; Fin 0]; [Fin 1; Fin 1]]]
           (of_rows [[Fin 1; Fin 0]; [Fin 1; Fin 1]])).
  - reflexivity.
  - reflexivity.
Defined.

(** *** The effect of [mask_diagonal] *)

Lemma offdiag_same_set_diag (v : val) (t : tensor) :
  offdiag_same t (set_diag v t).
Proof.
  destruct t as [n m e | b n m e]; simpl; repeat (split; [reflexivity|]);
    intros; match goal with H : _ <> _ |- _ => apply Nat.eqb_neq in H;
                                               rewrite H end; reflexivity.
Qed.

Lemma set_diag_twice (v w : val) (t : tensor) :
  diag_all w (set_diag w (set_diag v t))
  /\ offdiag_same t (set_diag w (set_diag v t)).
Proof.
  split; [apply diag_all_set_diag|].
  destruct t as [n m e | b n m e]; simpl; repeat (split; [reflexivity|]);
    intros; match goal with H : _ <> _ |- _ => apply Nat.eqb_neq in H;
                                               rewrite H end; reflexivity.
Qed.

Lemma mask_diagonal_accepts (self : BPA) (M : loc) (v : val) (h : heap)
    (t : tensor) :
  mask_diag self = true -> h !! M = Some t ->
  dim t = 2%nat \/ trailing_square t = true ->
  mask_diagonal self M v h = (Ok M, <[M:=set_diag v t]> h).
Proof.
  intros Hon HM Hsq. rewrite (mask_diagonal_run self M v h t HM), Hon.
  destruct Hsq as [-> | ->]; [reflexivity|].
  rewrite andb_false_r. reflexivity.
Qed.

(** X10: with masking enabled, on a matrix or a batch of square matrices,
    [mask_diagonal] returns the tensor it was given, now holding [value] on
    its diagonal and its old entries everywhere else; the shape is kept and
    no other tensor of the store changes. *)
Theorem mask_diagonal_sets_only_diagonal (self : BPA) (M : loc) (v : val)
    (h : heap) (t : tensor) :
  mask_diag self = true -> h !! M = Some t ->
  dim t = 2%nat \/ trailing_square t = true ->
  exists (h' : heap) (t' : tensor),
    mask_diagonal self M v h = (Ok M, h')
    /\ h' !! M = Some t'
    /\ diag_all v t'
    /\ offdiag_same t t'
    /\ length h' = length h
    /\ forall l, l <> M -> h' !! l = h !! l.
Proof.
  intros Hon HM Hsq.
  rewrite (mask_diagonal_accepts self M v h t Hon HM Hsq).
  eexists _, _. split; [reflexivity|].
  split; [apply list_lookup_insert_eq; eapply lookup_lt_Some; exact HM|].
  split; [apply diag_all_set_diag|].
  split; [apply offdiag_same_set_diag|].
  split; [apply length_insert|].
  intros l Hl. apply list_lookup_insert_ne. congruence.
Qed.

Lemma mask_diagonal_sets_only_diagonal_witness :
  exists (h' : heap) (t' : tensor),
    mask_diagonal (mkBPA 10 "cosine" true false (Fin (/ 10)) true (Fin 1000))
                  1%nat (Fin 7)
                  [of_rows [[Fin 1]];
                   of_batch [[[Fin 1; Fin 2]; [Fin 3; Fin 4]]]] = (Ok 1%nat, h')
    /\ h' !! 1%nat = Some t'
    /\ diag_all (Fin 7) t'
    /\ offdiag_same (of_batch [[[Fin 1; Fin 2]; [Fin 3; Fin 4]]]) t'
    /\ length h' = length [of_rows [[Fin 1]];
                           of_batch [[[Fin 1; Fin 2]; [Fin 3; Fin 4]]]]
    /\ forall l, l <> 1%nat ->
                 h' !! l = [of_rows [[Fin 1]];
                            of_batch [[[Fin 1; Fin 2]; [Fin 3; Fin 4]]]] !! l.
Proof.
  apply (mask_diagonal_sets_only_diagonal
           (mkBPA 10 "cosine" true false (Fin (/ 10)) true (Fin 1000))
           1%nat (Fin 7)
           [of_rows [[Fin 1]]; of_batch [[[Fin 1; Fin 2]; [Fin 3; Fin 4]]]]
           (of_batch [[[Fin 1; Fin 2]; [Fin 3; Fin 4]]])).
  - reflexivity.
  - reflexivity.
  - right. reflexivity.
Defined.

(** X11: masking the same tensor twice keeps the second value: after
    [mask_diagonal (M, v)] then [mask_diagonal (M, w)] the diagonal holds [w]
    and the off-diagonal entries are still the original ones. *)
Theorem mask_diagonal_twice_last_wins (self : BPA) (M : loc) (v w : val)
    (h : heap) (t : tensor) :
  mask_diag self = true -> h !! M = Some t ->
  dim t = 2%nat \/ trailing_square t = true ->
  exists (h' : heap) (t' : tensor),
    bind (mask_diagonal self M v) (fun M' => mask_diagonal self M' w) h
    = (Ok M, h')
    /\ h' !! M = Some t'
    /\ diag_all w t'
    /\ offdiag_same t t'.
Proof.
  intros Hon HM Hsq.
  assert (M < length h)%nat as Hlt by (eapply lookup_lt_Some; exact HM).
  rewrite (bind_run _ _ _ _ _ (mask_diagonal_accepts self M v h t Hon HM Hsq)).
  assert (<[M:=set_diag v t]> h !! M = Some (set_diag v t)) as HM'
    by (apply list_lookup_insert_eq; exact Hlt).
  rewrite (mask_diagonal_accepts self M w _ (set_diag v t) Hon HM').
  - eexists _, _. split; [reflexivity|].
    split; [apply list_lookup_insert_eq; rewrite length_insert; exact Hlt|].
    apply set_diag_twice.
  - destruct t; simpl in *; exact Hsq.
Qed.

Lemma mask_diagonal_twice_last_wins_witness :
  exists (h' : heap) (t' : tensor),
    bind (mask_diagonal
            (mkBPA 10 "cosine" true false (Fin (/ 10)) true (Fin 1000))
            O (Fin 1000))
         (fun M' =>
            mask_diagonal
              (mkBPA 10 "cosine" true false (Fin (/ 10)) true (Fin 1000))
              M' (Fin 1))
         [of_rows [[Fin 1; Fin 2]; [Fin 3; Fin 4]]] = (Ok O, h')
    /\ h' !! O = Some t'
    /\ diag_all (Fin 1) t'
    /\ offdiag_same (of_rows [[Fin 1; Fin 2]; [Fin 3; Fin 4]]) t'.
Proof.
  apply (mask_diagonal_twice_last_wins
           (mkBPA 10 "cosine" true false (Fin (/ 10)) true (Fin 1000))
           O (Fin 1000) (Fin 1)
           [of_rows [[Fin 1; Fin 2]; [Fin 3; Fin 4]]]
           (of_rows [[Fin 1; Fin 2]; [Fin 3; Fin 4]])).
  - reflexivity.
  - reflexivity.
  - left. reflexivity.
Defined.

(** *** The output of [forward] *)

Lemma entries_set_diag (P : val -> Prop) (v : val) (t : tensor) :
  P v -> entries P t -> entries P (set_diag v t).
Proof.
  intros Hv. destruct t as [n m e | b n m e]; simpl; intros Ht; intros;
    destruct (_ =? _)%nat; try exact Hv; apply Ht; assumption.
Qed.

(** [torch.sigmoid] maps everything but [NaN] into [[0, 1]], the two
    infinities included. *)
Lemma vsigmoid_range (v : val) : v <> NaN -> in_range 0 1 (vsigmoid v).
Proof.
  destruct v as [x| | |]; unfold in_range; simpl; intros Hv;
    try (split; lra); [|contradiction].
  pose proof (exp_pos (- x)) as He.
  assert (0 < / (1 + exp (- x)))%R as Hpos
    by (apply Rinv_0_lt_compat; lra).
  assert (/ (1 + exp (- x)) < 1)%R as Hlt.
  { rewrite <- Rinv_1 at 2. apply Rinv_lt_contravar; lra. }
  split; lra.
Qed.

Section Output.

Variable log_sinkhorn : tensor -> val -> Z -> tensor.

(** The solver returns a plan of the shape of its cost matrix. *)
Hypothesis log_sinkhorn_shape :
  forall C reg it, shape (log_sinkhorn C reg it) = shape C.

Variable self : BPA.

Lemma masked_cost_shape (x : loc) (h : heap) (xt : tensor) (C : loc)
    (hC : heap) (Cm : tensor) :
  distance_metric self = "cosine" \/ distance_metric self = "euclidean" ->
  h !! x = Some xt -> populated xt ->
  masked_cost self x h = (Ok C, hC) -> hC !! C = Some Cm ->
  shape Cm = square_shape xt.
Proof.
  intros Hm Hx Hp Hrun HC.
  destruct (masked_cost_run self x h xt Hm Hx Hp)
    as (tmp & C0 & _ & HshC & Hrun').
  rewrite Hrun' in Hrun. injection Hrun as <- <-.
  rewrite lookup_second_fresh in HC. injection HC as <-.
  destruct (mask_diag self); [rewrite shape_set_diag|]; exact HshC.
Qed.

(** The tensor [forward] returns: the rescaled (or only recovered) plan [Q],
    with its diagonal set to one when masking is enabled. *)
Lemma forward_value (x : loc) (h : heap) (xt : tensor) (C : loc) (hC : heap)
    (Cm : tensor) :
  distance_metric self = "cosine" \/ distance_metric self = "euclidean" ->
  h !! x = Some xt -> populated xt ->
  masked_cost self x h = (Ok C, hC) -> hC !! C = Some Cm ->
  let P := recovered self
             (log_sinkhorn Cm (ot_reg self) (sinkhorn_iterations self)) in
  exists out h' Q,
    forward log_sinkhorn self x h = (Ok out, h')
    /\ h' !! out = Some (if mask_diag self then set_diag (Fin 1) Q else Q)
    /\ shape Q = square_shape xt
    /\ shape P = square_shape xt
    /\ if max_scale self then scaled_by_slice_max P Q else Q = P.
Proof.
  intros Hm Hx Hp Hrun HC P.
  pose proof (masked_cost_shape x h xt C hC Cm Hm Hx Hp Hrun HC) as HshCm.
  destruct (forward_scaled_ok log_sinkhorn log_sinkhorn_shape self
              x h C hC Cm Hrun HC (numel_square Cm xt Hp HshCm))
    as (l & h1 & Q & Hfs & Hl & HshQ & Hsc).
  rewrite HshCm in HshQ.
  assert (shape P = square_shape xt) as HshP.
  { unfold P. rewrite shape_recovered, log_sinkhorn_shape. exact HshCm. }
  unfold forward. rewrite (bind_run _ _ _ _ _ Hfs).
  rewrite (mask_diagonal_run self l (Fin 1) h1 Q Hl).
  destruct (mask_diag self).
  - rewrite (square_shape_trailing Q xt HshQ), andb_false_r.
    eexists _, _, Q. split; [reflexivity|].
    split; [apply list_lookup_insert_eq; eapply lookup_lt_Some; exact Hl|].
    split; [exact HshQ|]. split; [exact HshP | exact Hsc].
  - exists l, h1, Q. split; [reflexivity|]. split; [exact Hl|].
    split; [exact HshQ|]. split; [exact HshP | exact Hsc].
Qed.

(** X12: with [sigmoid] set and [max_scale] not, when the solver's plan
    holds no [NaN], every entry of the tensor [forward] returns lies in
    [[0, 1]], with masking enabled or not: the sigmoid bounds the output
    without a rescale. *)
Theorem forward_sigmoid_output_unit_range (x : loc) (h : heap) (xt : tensor)
    (C : loc) (hC : heap) (Cm : tensor) :
  distance_metric self = "cosine" \/ distance_metric self = "euclidean" ->
  h !! x = Some xt -> populated xt ->
  masked_cost self x h = (Ok C, hC) -> hC !! C = Some Cm ->
  entries (fun v => v <> NaN)
          (log_sinkhorn Cm (ot_reg self) (sinkhorn_iterations self)) ->
  sigmoid self = true -> max_scale self = false ->
  exists (out : loc) (h' : heap) (A : tensor),
    forward log_sinkhorn self x h = (Ok out, h')
    /\ h' !! out = Some A
    /\ shape A = square_shape xt
    /\ entries (in_range 0 1) A.
Proof.
  intros Hm Hx Hp Hrun HC Hnum Hsg Hms.
  destruct (forward_value x h xt C hC Cm Hm Hx Hp Hrun HC)
    as (out & h' & Q & Hfw & Hout & HshQ & HshP & Hsc).
  rewrite Hms in Hsc. subst Q.
  assert (entries (in_range 0 1)
            (recovered self
               (log_sinkhorn Cm (ot_reg self) (sinkhorn_iterations self))))
    as HQ.
  { unfold recovered. rewrite Hsg.
    destruct (log_sinkhorn Cm (ot_reg self) (sinkhorn_iterations self))
      as [n m e | b n m e]; simpl in *; intros;
      apply vsigmoid_range; apply Hnum; assumption. }
  exists out, h'. eexists. split; [exact Hfw|]. split; [exact Hout|].
  destruct (mask_diag self).
  - split; [rewrite shape_set_diag; exact HshQ|].
    apply entries_set_diag; [|exact HQ]. unfold in_range. simpl. lra.
  - split; [exact HshQ | exact HQ].
Qed.

End Output.

Lemma forward_sigmoid_output_unit_range_witness :
  let self := mkBPA 10 "cosine" false true (Fin (/ 10)) false (Fin 1000) in
  let x := of_rows [[Fin 1; Fin 0]; [Fin 0; Fin 1]] in
  exists (out : loc) (h' : heap) (A : tensor),
    forward Ot.log_sinkhorn self O [x] = (Ok out, h')
    /\ h' !! out = Some A
    /\ shape A = square_shape x
    /\ entries (in_range 0 1) A.
Proof.
  intros self x.
  apply (forward_sigmoid_output_unit_range Ot.log_sinkhorn
           ot_log_sinkhorn_shape self O [x] x 2%nat
           [x; normalize x; one_minus (gram (normalize x))]
           (one_minus (gram (normalize x)))).
  - left. reflexivity.
  - reflexivity.
  - simpl. lia.
  - reflexivity.
  - reflexivity.
  - assert (tfinite (Ot.log_sinkhorn (one_minus (gram (normalize x)))
                       (ot_reg self) (sinkhorn_iterations self))) as Hfin.
    { apply ot_log_sinkhorn_finite.
      - unfold numel. simpl. lia.
      - apply (entries_range_finite 0 2). apply cosine_cost_range.
        intros [|[|i]] [|[|j]] Hi Hj; simpl in *; try lia; exact I.
      - lra. }
    intros i j Hi Hj Hnan. specialize (Hfin i j Hi Hj). cbv beta in Hfin.
    rewrite Hnan in Hfin. exact Hfin.
  - reflexivity.
  - reflexivity.
Defined.

(** *** The degenerate euclidean input *)

(** X14: for the euclidean metric, when the tensor has at least one item and
    every pairwise distance is zero (a single item, or all rows equal),
    [compute_cost_matrix] returns, without raising, a tensor whose entries
    are all [NaN]: the scaling divides zero by the zero maximum. *)
Theorem euclidean_cost_all_nan_when_distances_vanish (self : BPA) (x : loc)
    (h : heap) (xt : tensor) :
  distance_metric self = "euclidean" ->
  h !! x = Some xt -> populated xt ->
  entries (eq (Fin 0)) (cdist_xx xt) ->
  exists (C : loc) (h' : heap) (Ct : tensor),
    compute_cost_matrix self x h = (Ok C, h')
    /\ h' !! C = Some Ct
    /\ shape Ct = square_shape xt
    /\ entries (eq NaN) Ct.
Proof.
  intros Hm Hx Hp Hzero.
  assert (tmax (cdist_xx xt) = Ok (Fin 0)) as Hmax.
  { unfold tmax.
    destruct (numel (cdist_xx xt) =? 0)%nat eqn:E.
    - apply Nat.eqb_eq in E. exfalso. revert E.
      apply (numel_square (cdist_xx xt) xt Hp). destruct xt; reflexivity.
    - f_equal. destruct xt as [n d e | b n d e]; simpl in *.
      + apply vmaxs_const; [exact Hp|]. intros i Hi.
        apply vmaxs_const; [exact Hp|]. intros j Hj.
        symmetry. apply Hzero; assumption.
      + destruct Hp as [Hb Hn].
        apply vmaxs_const; [exact Hb|]. intros k Hk.
        apply vmaxs_const; [exact Hn|]. intros i Hi.
        apply vmaxs_const; [exact Hn|]. intros j Hj.
        symmetry. apply Hzero; assumption. }
  rewrite (compute_cost_matrix_run self x h xt Hx), Hm.
  simpl String.eqb. cbv iota. rewrite Hmax.
  eexists _, _, _. split; [reflexivity|].
  split; [apply lookup_second_fresh|].
  split; [destruct xt; reflexivity|].
  destruct xt as [n d e | b n d e]; simpl in *; intros.
  - rewrite <- (Hzero i j) by assumption. simpl. rewrite sgn_zero. reflexivity.
  - rewrite <- (Hzero k i j) by assumption. simpl. rewrite sgn_zero.
    reflexivity.
Qed.

Lemma euclidean_cost_all_nan_when_distances_vanish_witness :
  exists (C : loc) (h' : heap) (Ct : tensor),
    compute_cost_matrix
      (mkBPA 10 "euclidean" true false (Fin (/ 10)) true (Fin 1000)) O
      [of_rows [[Fin 3; Fin 4]]] = (Ok C, h')
    /\ h' !! C = Some Ct
    /\ shape Ct = square_shape (of_rows [[Fin 3; Fin 4]])
    /\ entries (eq NaN) Ct.
Proof.
  apply (euclidean_cost_all_nan_when_distances_vanish
           (mkBPA 10 "euclidean" true false (Fin (/ 10)) true (Fin 1000)) O
           [of_rows [[Fin 3; Fin 4]]] (of_rows [[Fin 3; Fin 4]])).
  - reflexivity.
  - reflexivity.
  - simpl. lia.
  - intros i j Hi Hj. symmetry.
    apply (l2dist_same 2 _ _ (fun k => match k with O => 3%R | _ => 4%R end));
      intros k Hk; simpl in Hi, Hj;
      destruct i as [|i]; destruct j as [|j]; try lia;
      destruct k as [|[|k]]; try lia; reflexivity.
Defined.
